(** * Minesweeper-AI: the knowledge engine of [minesweeper.py]

  A shallow embedding of the three classes of [minesweeper.py]
  ([Minesweeper], [Sentence], [MinesweeperAI]) and the properties of the
  inference engine.

  Data: a cell is a Python tuple [(i, j)] of integers, here [Z * Z]; a
  Python [set] of cells is a [gset Cell]; the knowledge base is a Python
  list of [Sentence] objects, here a [list Sentence.t] (every [Sentence]
  owns a fresh copy of its cell set, [set(cells)], so no two list entries
  alias).  The [while] loop of [add_knowledge] need not terminate on
  every state and is run with fuel. *)

From stdpp Require Import gmap list fin_sets.

#[local] Set Warnings "-clear-no-such-hyp".

Local Open Scope Z_scope.

Abbreviation Cell := (Z * Z)%type.

(** Python's [range(a, b)]. *)
Definition range (a b : Z) : list Z := seqZ a (b - a).

(** [set.symmetric_difference]. *)
Definition symmetric_difference (X Y : gset Cell) : gset Cell :=
  (X ∖ Y) ∪ (Y ∖ X).

(** ** class Minesweeper *)
Module Minesweeper.

Record t := mk {
  height : Z;
  width : Z;
  board : list (list bool)
}.

(** [self.board[i][j]] for indices of the board: [0 <= i < len(board)]
    and [0 <= j < len(board[i])], which on the [height] x [width] board
    that [__init__] builds is [0 <= i < height] and [0 <= j < width].
    Elsewhere the model differs from Python (a negative index would count
    from the end, an index past the end would raise [IndexError]; here a
    negative index reads as 0 and a missing entry as [False]); every read
    below and in the properties is under the bounds test of line 74 or is
    on a cell of the board. *)
Definition board_at (g : t) (i j : Z) : bool :=
  match board g !! Z.to_nat i with
  | Some row => default false (row !! Z.to_nat j)
  | None => false
  end.

Definition in_bounds (g : t) (i j : Z) : bool :=
  (0 <=? i) && (i <? height g) && (0 <=? j) && (j <? width g).

(** [is_mine], for a cell of the board (see [board_at]). *)
Definition is_mine (g : t) (cell : Cell) : bool :=
  board_at g cell.1 cell.2.

Definition nearby_mines (g : t) (cell : Cell) : Z :=
  foldl (λ count i,
    foldl (λ count j,
      if decide ((i, j) = cell) then count
      else if in_bounds g i j then
             if board_at g i j then count + 1 else count
           else count)
      count (range (cell.2 - 1) (cell.2 + 2)))
    0 (range (cell.1 - 1) (cell.1 + 2)).

End Minesweeper.

(** ** class Sentence *)
Module Sentence.

Record t := mk {
  cells : gset Cell;
  count : Z
}.

(** [Sentence(cells, count)] with [cells] a list: [set(cells)]. *)
Definition of_list (l : list Cell) (c : Z) : t := mk (list_to_set l) c.

(** [__eq__] compares the cell sets and the counts, which is equality of
    records. *)
Global Instance eq_dec : EqDecision t.
Proof. solve_decision. Defined.

Global Instance countable : Countable t.
Proof.
  apply (inj_countable' (λ s, (cells s, count s)) (λ p, mk p.1 p.2)).
  by intros [].
Defined.

Definition known_mines (s : t) : option (gset Cell) :=
  if decide (Z.of_nat (size (cells s)) = count s) then Some (cells s)
  else None.

Definition known_safes (s : t) : option (gset Cell) :=
  if decide (count s = 0) then Some (cells s) else None.

Definition mark_mine (cell : Cell) (s : t) : t :=
  if decide (cell ∈ cells s) then mk (cells s ∖ {[cell]}) (count s - 1)
  else s.

Definition mark_safe (cell : Cell) (s : t) : t :=
  if decide (cell ∈ cells s) then mk (cells s ∖ {[cell]}) (count s)
  else s.

End Sentence.

(** ** class MinesweeperAI *)
Module MinesweeperAI.

Record t := mk {
  height : Z;
  width : Z;
  moves_made : gset Cell;
  mines : gset Cell;
  safes : gset Cell;
  knowledge : list Sentence.t
}.

(** [__init__] *)
Definition init (h w : Z) : t := mk h w ∅ ∅ ∅ [].

(** In-place updates of one attribute. *)
Definition set_moves_made (f : gset Cell → gset Cell) (a : t) : t :=
  mk (height a) (width a) (f (moves_made a)) (mines a) (safes a)
     (knowledge a).
Definition set_mines (f : gset Cell → gset Cell) (a : t) : t :=
  mk (height a) (width a) (moves_made a) (f (mines a)) (safes a)
     (knowledge a).
Definition set_safes (f : gset Cell → gset Cell) (a : t) : t :=
  mk (height a) (width a) (moves_made a) (mines a) (f (safes a))
     (knowledge a).
Definition set_knowledge (f : list Sentence.t → list Sentence.t) (a : t)
  : t :=
  mk (height a) (width a) (moves_made a) (mines a) (safes a)
     (f (knowledge a)).

Definition mark_mine (cell : Cell) (a : t) : t :=
  set_knowledge (fmap (Sentence.mark_mine cell))
    (set_mines (λ m, m ∪ {[cell]}) a).

Definition mark_safe (cell : Cell) (a : t) : t :=
  set_knowledge (fmap (Sentence.mark_safe cell))
    (set_safes (λ s, s ∪ {[cell]}) a).

(** The eight cells listed at lines 198 and 235-242, in that order. *)
Definition neighbours (i j : Z) : list Cell :=
  [(i - 1, j + 1); (i, j + 1); (i + 1, j + 1); (i - 1, j); (i + 1, j);
   (i - 1, j - 1); (i, j - 1); (i + 1, j - 1)].

(** [self.knowledge.count(s)]: the number of entries equal to [s]. *)
Definition list_count (s : Sentence.t) (kn : list Sentence.t) : nat :=
  length (filter (λ t, t = s) kn).

(** Lines 205-212: the body of the two nested [for] loops, at indices
    [x] and [y].  The state is the knowledge list and the [change]
    flag. *)
Definition derive (s1 s2 : Sentence.t) : Sentence.t :=
  Sentence.mk
    (symmetric_difference (Sentence.cells s2) (Sentence.cells s1))
    (Z.abs (Sentence.count s2 - Sentence.count s1)).

Definition pair_step (x y : nat) (st : list Sentence.t * bool)
  : list Sentence.t * bool :=
  match st.1 !! x, st.1 !! y with
  | Some s1, Some s2 =>
      if decide (Sentence.cells s2 ⊆ Sentence.cells s1
                 ∨ Sentence.cells s1 ⊆ Sentence.cells s2)
      then
        if decide (list_count (derive s1 s2) st.1 = 0%nat)
        then (st.1 ++ [derive s1 s2], true)
        else st
      else st
  | _, _ => st
  end.

(** Line 203: [range(len(self.knowledge))] is evaluated when the inner
    loop starts, so sentences appended for an earlier [x] are visited,
    those appended during this row are not. *)
Definition row_step (x : nat) (st : list Sentence.t * bool)
  : list Sentence.t * bool :=
  foldl (λ st y, pair_step x y st) st (seq 0 (length st.1)).

(** Line 202: the outer range is evaluated once, before the pass. *)
Definition derive_pass (kn : list Sentence.t) : list Sentence.t * bool :=
  foldl (λ st x, row_step x st) (kn, false) (seq 0 (length kn)).

(** Lines 215-220, for one sentence: iterate over a copy of the cell
    set and remove the cells known to be safe. *)
Definition remove_safes (sf : gset Cell) (s : Sentence.t) : Sentence.t :=
  foldl (λ s ele,
    if decide (ele ∈ sf)
    then Sentence.mk (Sentence.cells s ∖ {[ele]}) (Sentence.count s)
    else s)
    s (elements (Sentence.cells s)).

(** Lines 223-229, for one sentence. *)
Definition remove_mines (mn : gset Cell) (s : Sentence.t) : Sentence.t :=
  foldl (λ s ele,
    if decide (ele ∈ mn)
    then Sentence.mk (Sentence.cells s ∖ {[ele]}) (Sentence.count s - 1)
    else s)
    s (elements (Sentence.cells s)).

(** Lines 215-229: the first loop over all sentences, then the second. *)
Definition cleanup (sf mn : gset Cell) (kn : list Sentence.t)
  : list Sentence.t :=
  remove_mines mn <$> (remove_safes sf <$> kn).

(** Lines 199-229: the [while] loop.  [None] when the fuel runs out. *)
Fixpoint closure_loop (fuel : nat) (sf mn : gset Cell) (change : bool)
    (kn : list Sentence.t) : option (list Sentence.t) :=
  if change && bool_decide (length kn ≠ 1%nat) then
    match fuel with
    | O => None
    | S fuel =>
        let st := derive_pass kn in
        closure_loop fuel sf mn st.2 (cleanup sf mn st.1)
    end
  else Some kn.

(** Lines 244-246. *)
Definition add_safe_neighbours (sf : gset Cell) (temp : list Cell)
  : gset Cell :=
  foldl (λ sf i,
    if (0 <=? i.1) && (i.1 <=? 7) && (0 <=? i.2) && (i.2 <=? 7)
    then sf ∪ {[i]} else sf)
    sf temp.

(** Lines 251-255. *)
Definition mark_known_mines (a : t) : t :=
  set_mines (λ mn,
    foldl (λ mn s,
      if decide (Z.of_nat (size (Sentence.cells s)) = Sentence.count s)
      then foldl (λ mn x, mn ∪ {[x]}) mn (elements (Sentence.cells s))
      else mn)
      mn (knowledge a)) a.

(** Lines 192-255.  [None] when the fuel of the loop runs out. *)
Definition add_knowledge (fuel : nat) (cell : Cell) (count : Z) (a : t)
  : option t :=
  let a := set_moves_made (λ m, m ∪ {[cell]}) a in
  let a := set_knowledge (fmap (Sentence.mark_safe cell)) a in
  let i := cell.1 in
  let j := cell.2 in
  a ← (if decide (count ≠ 0) then
         let a :=
           set_knowledge
             (λ kn, kn ++ [Sentence.of_list (neighbours i j) count]) a in
         kn ← closure_loop fuel (safes a) (mines a) true (knowledge a);
         Some (set_knowledge (λ _, kn) a)
       else
         Some (set_safes (λ sf, add_safe_neighbours sf (neighbours i j))
                 a));
  Some (mark_known_mines a).

(** [make_safe_move]; [to_list] is the order in which [list(self.safes)]
    enumerates the set.  Returns the move and the new state. *)
Definition make_safe_move (to_list : gset Cell → list Cell) (a : t)
  : option Cell * t :=
  if decide (1 < size (safes a))%nat then
    match list_find (λ ele, ele ∉ moves_made a) (to_list (safes a)) with
    | Some (_, ele) => (Some ele, set_moves_made (λ m, m ∪ {[ele]}) a)
    | None => (None, a)
    end
  else (None, a).

(** What a call of [make_random_move] does on the draws it is given: it
    returns a cell, raises, or is still in its [while True] loop when the
    draws are used up. *)
Inductive outcome : Type :=
| Returned (move : Cell)
| Raised
| Running.

(** The first draw that passes the test of lines 291 and 297. *)
Definition first_move (draws : list Cell) (a : t) : outcome :=
  match list_find (λ move, (move ∉ moves_made a) ∧ (move ∉ mines a)) draws
  with
  | Some (_, move) => Returned move
  | None => Running
  end.

(** [make_random_move].  The random source is given as the successive
    draws.  [random.sample(self.safes, 1)] is applied to a set: Python
    3.11 and later raise [TypeError] there, [sample = None]; Python up to
    3.10 draw an element of the set, and [sample = Some draws] holds the
    successive results of [random.sample(self.safes, 1)[0]].  [rand]
    holds the successive pairs
    [(random.randrange(0, 8), random.randrange(0, 8))]. *)
Definition make_random_move (sample : option (list Cell))
    (rand : list Cell) (a : t) : outcome :=
  if decide ((0 < size (safes a))%nat ∧ ¬ (safes a ⊆ moves_made a)) then
    match sample with
    | None => Raised
    | Some draws => first_move draws a
    end
  else first_move rand a.

End MinesweeperAI.

Arguments MinesweeperAI.add_safe_neighbours : simpl never.
Arguments MinesweeperAI.mark_known_mines : simpl never.
Arguments MinesweeperAI.neighbours : simpl never.

(** ** class Minesweeper, the whole object: [__init__] and [won]

    [Minesweeper.t] above holds the attributes that [nearby_mines] and
    [is_mine] read; [Game.t] adds the two sets.  The draws of
    [random.randrange(height)] and [random.randrange(width)] are given as
    a list of pairs. *)
Module Game.

Record t := mk {
  board : Minesweeper.t;
  mines : gset Cell;
  mines_found : gset Cell
}.

(** Lines 18-23. *)
Definition empty_board (height width : Z) : list (list bool) :=
  replicate (Z.to_nat height) (replicate (Z.to_nat width) false).

(** Line 31: [self.board[i][j] = True], for the [i], [j] that
    [randrange] returns, which index the board. *)
Definition set_mine (b : list (list bool)) (i j : Z) : list (list bool) :=
  alter (λ row, <[Z.to_nat j := true]> row) (Z.to_nat i) b.

(** Lines 26-31.  [None] when the draws run out before the loop ends.
    (When [height] or [width] is not positive [randrange] raises at the
    first draw: there is no draw to give.) *)
Fixpoint place_mines (height width mines : Z) (draws : list Cell)
    (b : list (list bool)) (ms : gset Cell)
  : option (list (list bool) * gset Cell) :=
  if decide (Z.of_nat (size ms) ≠ mines) then
    match draws with
    | [] => None
    | (i, j) :: draws =>
        if Minesweeper.board_at (Minesweeper.mk height width b) i j
        then place_mines height width mines draws b ms
        else place_mines height width mines draws (set_mine b i j)
               (ms ∪ {[(i, j)]})
    end
  else Some (b, ms).

(** [__init__] *)
Definition init (height width mines : Z) (draws : list Cell) : option t :=
  r ← place_mines height width mines draws (empty_board height width) ∅;
  Some (mk (Minesweeper.mk height width r.1) r.2 ∅).

Definition won (g : t) : bool := bool_decide (mines_found g = mines g).

End Game.

(** * Vocabulary of the properties *)

(** The bounds that line 245 checks. *)
Definition in_fixed_bounds (c : Cell) : Prop :=
  0 ≤ c.1 ≤ 7 ∧ 0 ≤ c.2 ≤ 7.

(** The test of line 252: as many cells as mines. *)
Definition determined (s : Sentence.t) : Prop :=
  Z.of_nat (size (Sentence.cells s)) = Sentence.count s.

(** The test of line 207. *)
Definition subset_related (s1 s2 : Sentence.t) : Prop :=
  Sentence.cells s2 ⊆ Sentence.cells s1
  ∨ Sentence.cells s1 ⊆ Sentence.cells s2.

(** [st'] is [st] after some appends of sentences it did not hold; the
    flag is set as soon as one is appended. *)
Definition grows (st st' : list Sentence.t * bool) : Prop :=
  ∃ new, st'.1 = st.1 ++ new
         ∧ NoDup new
         ∧ (∀ s, s ∈ new → s ∉ st.1)
         ∧ st'.2 = (st.2 || bool_decide (new ≠ [])).

(** A property of sentences that derivation preserves. *)
Definition derive_closed (Q : Sentence.t → Prop) : Prop :=
  ∀ s1 s2, Q s1 → Q s2 → subset_related s1 s2 →
    Q (MinesweeperAI.derive s1 s2).

(** Every pair of entries with one cell set inside the other has its
    derived sentence in the list. *)
Definition derivation_closed (kn : list Sentence.t) : Prop :=
  ∀ x y s1 s2, kn !! x = Some s1 → kn !! y = Some s2 →
    subset_related s1 s2 → MinesweeperAI.derive s1 s2 ∈ kn.

(** [M] says which cells hold a mine.  A sentence is sound when its count
    is the number of mines among its cells. *)
Definition true_mines (M : Cell → bool) (X : gset Cell) : gset Cell :=
  filter (λ c, M c = true) X.

Definition mine_count (M : Cell → bool) (X : gset Cell) : Z :=
  Z.of_nat (size (true_mines M X)).

Definition sound (M : Cell → bool) (s : Sentence.t) : Prop :=
  Sentence.count s = mine_count M (Sentence.cells s).

(** The engine state agrees with the layout. *)
Definition consistent (M : Cell → bool) (a : MinesweeperAI.t) : Prop :=
  Forall (sound M) (MinesweeperAI.knowledge a)
  ∧ (∀ c, c ∈ MinesweeperAI.safes a → M c = false)
  ∧ (∀ c, c ∈ MinesweeperAI.mines a → M c = true).

(** An observation that agrees with the layout: a cell without a mine and
    the number of mines among its eight neighbours. *)
Definition observation (M : Cell → bool) (cell : Cell) (count : Z) : Prop :=
  M cell = false
  ∧ count
    = mine_count M (list_to_set (MinesweeperAI.neighbours cell.1 cell.2)).

(** The layout of a board: the in-bounds cells that hold a mine. *)
Definition mine_at (g : Minesweeper.t) (c : Cell) : bool :=
  Minesweeper.in_bounds g c.1 c.2 && Minesweeper.board_at g c.1 c.2.

(** The list on which the [while] loop of [add_knowledge] starts. *)
Definition observed_knowledge (cell : Cell) (count : Z)
    (a : MinesweeperAI.t) : list Sentence.t :=
  (Sentence.mark_safe cell <$> MinesweeperAI.knowledge a)
  ++ [Sentence.of_list (MinesweeperAI.neighbours cell.1 cell.2) count].

(** Both cleanup loops on one sentence. *)
Definition cleanup_one (sf mn : gset Cell) (s : Sentence.t) : Sentence.t :=
  MinesweeperAI.remove_mines mn (MinesweeperAI.remove_safes sf s).

Definition sets_grow (a a' : MinesweeperAI.t) : Prop :=
  MinesweeperAI.safes a ⊆ MinesweeperAI.safes a'
  ∧ MinesweeperAI.mines a ⊆ MinesweeperAI.mines a'
  ∧ MinesweeperAI.moves_made a ⊆ MinesweeperAI.moves_made a'.

Fixpoint sublists {A} (l : list A) : list (list A) :=
  match l with
  | [] => [[]]
  | x :: l => sublists l ++ (cons x <$> sublists l)
  end.

(** All sentences over cells of [U] with a count in [0..B]. *)
Definition all_sentences (U : gset Cell) (B : Z) : list Sentence.t :=
  l ← sublists (elements U);
  c ← seqZ 0 (B + 1);
  [Sentence.mk (list_to_set l) c].

Definition bounded (U : gset Cell) (B : Z) (s : Sentence.t) : Prop :=
  Sentence.cells s ⊆ U ∧ 0 ≤ Sentence.count s ≤ B.

Definition clean (sf mn : gset Cell) (s : Sentence.t) : Prop :=
  Sentence.cells s ## sf ∧ Sentence.cells s ## mn.

Definition settled (U : gset Cell) (B : Z) (sf mn : gset Cell)
    (s : Sentence.t) : Prop :=
  bounded U B s ∧ clean sf mn s.

(** The sentences of the finite range that the list does not hold. *)
Definition missing (U : gset Cell) (B : Z) (kn : list Sentence.t)
  : gset Sentence.t :=
  list_to_set (all_sentences U B) ∖ list_to_set kn.

(** The cells that the knowledge list mentions. *)
Definition mentioned (kn : list Sentence.t) : gset Cell :=
  ⋃ (Sentence.cells <$> kn).

Definition within (U : gset Cell) (s : Sentence.t) : Prop :=
  Sentence.cells s ⊆ U.

(** ** Runs of the engine *)

Inductive op : Type :=
| AddKnowledge (cell : Cell) (count : Z)
| MarkMine (cell : Cell)
| MarkSafe (cell : Cell)
| MakeSafeMove.

Definition run_op (to_list : gset Cell → list Cell) (fuel : nat) (o : op)
    (a : MinesweeperAI.t) : option MinesweeperAI.t :=
  match o with
  | AddKnowledge cell count => MinesweeperAI.add_knowledge fuel cell count a
  | MarkMine cell => Some (MinesweeperAI.mark_mine cell a)
  | MarkSafe cell => Some (MinesweeperAI.mark_safe cell a)
  | MakeSafeMove => Some (MinesweeperAI.make_safe_move to_list a).2
  end.

(** [run to_list a ops a']: the calls [ops], made in this order on the
    state [a], all return and leave the state [a']. *)
Inductive run (to_list : gset Cell → list Cell)
  : MinesweeperAI.t → list op → MinesweeperAI.t → Prop :=
| run_nil a : run to_list a [] a
| run_cons a o a1 ops a2 fuel :
    run_op to_list fuel o a = Some a1 →
    run to_list a1 ops a2 →
    run to_list a (o :: ops) a2.

(** The call agrees with the layout [M]. *)
Definition agrees (M : Cell → bool) (o : op) : Prop :=
  match o with
  | AddKnowledge cell count => observation M cell count
  | MarkMine cell => M cell = true
  | MarkSafe cell => M cell = false
  | MakeSafeMove => True
  end.

(** What the board [g] reports for a revealed cell. *)
Definition reported (g : Minesweeper.t) (cell : Cell) (count : Z) : Prop :=
  Minesweeper.in_bounds g cell.1 cell.2 = true
  ∧ Minesweeper.is_mine g cell = false
  ∧ count = Minesweeper.nearby_mines g cell.

(** The engine states reached from a new engine by observations that the
    board [g] reports. *)
Inductive observed (g : Minesweeper.t) : MinesweeperAI.t → Prop :=
| observed_init h w : observed g (MinesweeperAI.init h w)
| observed_step a cell count fuel a' :
    observed g a →
    reported g cell count →
    MinesweeperAI.add_knowledge fuel cell count a = Some a' →
    observed g a'.

Definition count_in_range (s : Sentence.t) : Prop :=
  0 ≤ Sentence.count s ≤ Z.of_nat (size (Sentence.cells s)).

(** No sentence mentions a cell of [sf] or of [mn]. *)
Definition free_of (sf mn : gset Cell) (kn : list Sentence.t) : Prop :=
  Forall (clean sf mn) kn.

(** The calls [ops] run one after the other, each with the same fuel. *)
Fixpoint run_ops (to_list : gset Cell → list Cell) (fuel : nat)
    (ops : list op) (a : MinesweeperAI.t) : option MinesweeperAI.t :=
  match ops with
  | [] => Some a
  | o :: ops => a1 ← run_op to_list fuel o a; run_ops to_list fuel ops a1
  end.

(** Reveal [cell] on the board [g] and pass what it reports to the
    engine (the engine is left as it is if the fuel runs out). *)
Definition observe (g : Minesweeper.t) (fuel : nat) (cell : Cell)
    (a : MinesweeperAI.t) : MinesweeperAI.t :=
  default a
    (MinesweeperAI.add_knowledge fuel cell (Minesweeper.nearby_mines g cell)
       a).

(** ** A board for the examples: 5 x 5, one mine at (2, 2) *)

Definition example_board : Minesweeper.t :=
  Minesweeper.mk 5 5
    [[false; false; false; false; false];
     [false; false; false; false; false];
     [false; false; true; false; false];
     [false; false; false; false; false];
     [false; false; false; false; false]].

Definition example_state0 : MinesweeperAI.t := MinesweeperAI.init 5 5.
Definition example_state1 : MinesweeperAI.t :=
  observe example_board 5 (0, 0) example_state0.
Definition example_state2 : MinesweeperAI.t :=
  observe example_board 5 (1, 1) example_state1.
Definition example_state3 : MinesweeperAI.t :=
  observe example_board 5 (2, 1) example_state2.

Definition example_ops : list op :=
  [AddKnowledge (0, 0) 0; AddKnowledge (1, 1) 1; MakeSafeMove;
   AddKnowledge (2, 1) 1; MarkSafe (0, 2); MarkMine (2, 2)].

Definition example_final : MinesweeperAI.t :=
  default example_state0 (run_ops elements 5 example_ops example_state0).

(** Calls that agree with no layout: two mines marked next to a cell that
    reported one. *)
Definition contradictory_ops : list op :=
  [AddKnowledge (1, 1) 1; MarkMine (0, 0); MarkMine (0, 1)].

Definition contradictory_final : MinesweeperAI.t :=
  default (MinesweeperAI.init 8 8)
    (run_ops elements 0 contradictory_ops (MinesweeperAI.init 8 8)).

(** An engine told that all eight neighbours of (1, 1) hold mines. *)
Definition surrounded_state : MinesweeperAI.t :=
  default (MinesweeperAI.init 8 8)
    (MinesweeperAI.add_knowledge 0 (1, 1) 8 (MinesweeperAI.init 8 8)).

Definition example_A : Sentence.t := Sentence.mk {[(0, 0)]} 1.
Definition example_B : Sentence.t := Sentence.mk {[(0, 0); (0, 1)]} 1.

(** An engine told that (1, 1) has one mine around it, then that each of
    the eight neighbours is a mine. *)
Definition overmarked_state : MinesweeperAI.t :=
  foldr MinesweeperAI.mark_mine
    (default (MinesweeperAI.init 8 8)
       (MinesweeperAI.add_knowledge 0 (1, 1) 1 (MinesweeperAI.init 8 8)))
    (MinesweeperAI.neighbours 1 1).

Definition example_obs_ops : list op :=
  [AddKnowledge (0, 0) 0; AddKnowledge (1, 1) 1].

(** The sentence "the one cell (2, 2) holds one mine", true of the example
    board, and "one of (2, 2), (2, 3) holds a mine". *)
Definition example_mine_sentence : Sentence.t := Sentence.mk {[(2, 2)]} 1.
Definition example_pair_sentence : Sentence.t :=
  Sentence.mk {[(2, 2); (2, 3)]} 1.
Definition example_safe_sentence : Sentence.t :=
  Sentence.mk {[(0, 0); (0, 1)]} 0.

(** The draws are cells of a [height] x [width] board. *)
Definition draws_in_range (height width : Z) (draws : list Cell) : Prop :=
  Forall (λ c, 0 ≤ c.1 < height ∧ 0 ≤ c.2 < width) draws.

(** The board has [height] rows of [width] cells and its mines are the
    cells of [ms]. *)
Definition board_ok (height width : Z) (b : list (list bool))
    (ms : gset Cell) : Prop :=
  length b = Z.to_nat height
  ∧ Forall (λ row, length row = Z.to_nat width) b
  ∧ ∀ c, mine_at (Minesweeper.mk height width b) c = true ↔ c ∈ ms.

(** The cells of a [height] x [width] board. *)
Definition board_cells (height width : Z) : list Cell :=
  cprod (seqZ 0 height) (seqZ 0 width).

(** An 8 x 8 board with one mine, at (3, 3), and the engine after the
    reports for (2, 2), (1, 1), (1, 2) and (2, 1). *)
Definition center_board : Minesweeper.t :=
  Minesweeper.mk 8 8
    (<[3%nat := <[3%nat := true]> (replicate 8 false)]>
       (replicate 8 (replicate 8 false))).

Definition unresolved_state : MinesweeperAI.t :=
  observe center_board 0 (2, 1)
    (observe center_board 0 (1, 2)
       (observe center_board 0 (1, 1)
          (observe center_board 0 (2, 2) (MinesweeperAI.init 8 8)))).

(** An 8 x 8 board with mines on the eight neighbours of (1, 1), and the
    engine after the reports for (1, 4), (1, 5) and (1, 1). *)
Definition ring_board : Minesweeper.t :=
  Minesweeper.mk 8 8
    [[true; true; true; false; false; false; false; false];
     [true; false; true; false; false; false; false; false];
     [true; true; true; false; false; false; false; false];
     replicate 8 false; replicate 8 false; replicate 8 false;
     replicate 8 false; replicate 8 false].

Definition ring_state : MinesweeperAI.t :=
  observe ring_board 0 (1, 1)
    (observe ring_board 0 (1, 5)
       (observe ring_board 0 (1, 4) (MinesweeperAI.init 8 8))).

(** An engine on which every cell of the 8 x 8 range has been played. *)
Definition played_out_state : MinesweeperAI.t :=
  MinesweeperAI.mk 8 8 (list_to_set (board_cells 8 8)) ∅ ∅ [].

(** * Basic facts about the embedding *)

Section basic_facts.
Import MinesweeperAI.
Implicit Types (s : Sentence.t) (kn : list Sentence.t) (a : t).
Implicit Types (sf mn : gset Cell) (c cell : Cell).

Lemma list_count_0 s kn : list_count s kn = 0%nat ↔ s ∉ kn.
Proof.
  unfold list_count. rewrite length_zero_iff_nil. split.
  - intros Hnil Hin.
    assert (s ∈ filter (λ t', t' = s) kn) as Hf
      by (apply list_elem_of_filter; done).
    rewrite Hnil in Hf. by apply not_elem_of_nil in Hf.
  - intros Hnin. induction kn as [|t' kn IH]; [done|].
    rewrite filter_cons. apply not_elem_of_cons in Hnin as [Hne Hnin].
    rewrite decide_False by done. by apply IH.
Qed.

Lemma symmetric_difference_subseteq (X Y : gset Cell) :
  X ⊆ Y → symmetric_difference Y X = Y ∖ X.
Proof. unfold symmetric_difference. set_solver. Qed.

Lemma symmetric_difference_comm (X Y : gset Cell) :
  symmetric_difference X Y = symmetric_difference Y X.
Proof. unfold symmetric_difference. set_solver. Qed.

Lemma remove_safes_fold sf (l : list Cell) s :
  foldl (λ s ele,
    if decide (ele ∈ sf)
    then Sentence.mk (Sentence.cells s ∖ {[ele]}) (Sentence.count s)
    else s) s l
  = Sentence.mk (Sentence.cells s ∖ (list_to_set l ∩ sf))
      (Sentence.count s).
Proof.
  revert s. induction l as [|x l IH]; intros [X n]; simpl.
  - f_equal. set_solver.
  - rewrite IH. destruct (decide (x ∈ sf)); simpl; f_equal; set_solver.
Qed.

Lemma remove_safes_spec sf s :
  remove_safes sf s
  = Sentence.mk (Sentence.cells s ∖ sf) (Sentence.count s).
Proof.
  unfold remove_safes. rewrite remove_safes_fold, list_to_set_elements_L.
  f_equal. set_solver.
Qed.

Lemma remove_mines_fold mn (l : list Cell) s :
  NoDup l → (∀ x, x ∈ l → x ∈ Sentence.cells s) →
  foldl (λ s ele,
    if decide (ele ∈ mn)
    then Sentence.mk (Sentence.cells s ∖ {[ele]}) (Sentence.count s - 1)
    else s) s l
  = Sentence.mk (Sentence.cells s ∖ (list_to_set l ∩ mn))
      (Sentence.count s - Z.of_nat (size (list_to_set l ∩ mn : gset Cell))).
Proof.
  revert s. induction l as [|x l IH]; intros [X n] Hnd Hin;
    cbn [foldl Sentence.cells Sentence.count] in *.
  - rewrite list_to_set_nil.
    replace (∅ ∩ mn : gset Cell) with (∅ : gset Cell) by set_solver.
    rewrite (size_empty (C:=gset Cell)). f_equal; [set_solver|lia].
  - apply NoDup_cons in Hnd as [Hx Hnd]. rewrite list_to_set_cons.
    destruct (decide (x ∈ mn)) as [Hmn|Hmn].
    + rewrite IH; cbn [Sentence.cells Sentence.count]; [|done|].
      * replace (({[x]} ∪ list_to_set l) ∩ mn : gset Cell)
          with ({[x]} ∪ (list_to_set l ∩ mn) : gset Cell) by set_solver.
        rewrite (size_union (C:=gset Cell) {[x]} (list_to_set l ∩ mn))
          by set_solver.
        rewrite (size_singleton (C:=gset Cell)).
        f_equal; [set_solver|lia].
      * intros y Hy. apply elem_of_difference. split.
        -- apply Hin. by right.
        -- intros ->%elem_of_singleton. done.
    + rewrite IH; cbn [Sentence.cells Sentence.count]; [|done|].
      * replace (({[x]} ∪ list_to_set l) ∩ mn : gset Cell)
          with (list_to_set l ∩ mn : gset Cell) by set_solver.
        done.
      * intros y Hy. apply Hin. by right.
Qed.

Lemma remove_mines_spec mn s :
  remove_mines mn s
  = Sentence.mk (Sentence.cells s ∖ mn)
      (Sentence.count s - Z.of_nat (size (Sentence.cells s ∩ mn))).
Proof.
  unfold remove_mines. rewrite remove_mines_fold.
  - rewrite list_to_set_elements_L. f_equal. set_solver.
  - apply NoDup_elements.
  - intros x. by rewrite elem_of_elements.
Qed.

Lemma elem_of_add_safe_neighbours sf (temp : list Cell) c :
  c ∈ add_safe_neighbours sf temp
  ↔ c ∈ sf ∨ (c ∈ temp ∧ in_fixed_bounds c).
Proof.
  unfold add_safe_neighbours, in_fixed_bounds.
  revert sf. induction temp as [|x temp IH]; intros sf; simpl.
  - set_solver.
  - rewrite IH, elem_of_cons.
    destruct ((0 <=? x.1) && (x.1 <=? 7) && (0 <=? x.2) && (x.2 <=? 7))
      eqn:Hb.
    + rewrite !andb_true_iff, !Z.leb_le in Hb.
      rewrite elem_of_union, elem_of_singleton.
      split; [|tauto]. intros [[?| ->]|?]; tauto.
    + split; [tauto|]. intros [?|[[->|?] ?]]; [tauto| |tauto].
      exfalso. apply not_true_iff_false in Hb. apply Hb.
      rewrite !andb_true_iff, !Z.leb_le. lia.
Qed.

Lemma mark_mines_fold mn (l : list Cell) c :
  c ∈ foldl (λ mn x, mn ∪ {[x]}) mn l ↔ c ∈ mn ∨ c ∈ l.
Proof.
  revert mn. induction l as [|x l IH]; intros mn; simpl.
  - set_solver.
  - rewrite IH. set_solver.
Qed.

Lemma elem_of_mark_known_mines a c :
  c ∈ mines (mark_known_mines a)
  ↔ c ∈ mines a
    ∨ ∃ s, s ∈ knowledge a ∧ determined s ∧ c ∈ Sentence.cells s.
Proof.
  unfold mark_known_mines, determined. simpl.
  generalize (mines a) as mn. generalize (knowledge a) as kn.
  induction kn as [|s kn IH]; intros mn; simpl.
  - split; [by left|]. intros [?|(s & Hs & _)]; [done|].
    by apply not_elem_of_nil in Hs.
  - rewrite IH. destruct (decide _) as [Hd|Hd].
    + rewrite mark_mines_fold, elem_of_elements. split.
      * intros [[?|?]|(s' & ? & ? & ?)]; [by left| |].
        -- right. exists s. split; [by left|done].
        -- right. exists s'. split; [by right|done].
      * intros [?|(s' & [->|?]%elem_of_cons & ? & ?)]; [by left;left| |].
        -- by left; right.
        -- right. by exists s'.
    + split.
      * intros [?|(s' & ? & ? & ?)]; [by left|].
        right. exists s'. split; [by right|done].
      * intros [?|(s' & [->|?]%elem_of_cons & ? & ?)]; [by left|done|].
        right. by exists s'.
Qed.

Lemma mark_known_mines_fields a :
  moves_made (mark_known_mines a) = moves_made a
  ∧ safes (mark_known_mines a) = safes a
  ∧ knowledge (mark_known_mines a) = knowledge a
  ∧ height (mark_known_mines a) = height a
  ∧ width (mark_known_mines a) = width a.
Proof. done. Qed.

End basic_facts.

(** * One pass of the derivation loop

  During a pass the knowledge list only grows at its end, by sentences
  that were not yet in it. *)

Section derive_pass_facts.
Import MinesweeperAI.
Implicit Types (s : Sentence.t) (kn new : list Sentence.t).
Implicit Types (st : list Sentence.t * bool).

Lemma grows_refl st : grows st st.
Proof.
  exists []. rewrite app_nil_r. split_and!; [done|constructor| |].
  - intros s Hs. by apply not_elem_of_nil in Hs.
  - rewrite bool_decide_eq_false_2 by (intros H; by apply H).
    by rewrite orb_false_r.
Qed.

Lemma grows_trans st1 st2 st3 : grows st1 st2 → grows st2 st3 → grows st1 st3.
Proof.
  intros (n1 & E1 & D1 & F1 & C1) (n2 & E2 & D2 & F2 & C2).
  exists (n1 ++ n2). split_and!.
  - by rewrite E2, E1, app_assoc.
  - apply NoDup_app. split_and!; [done| |done].
    intros s Hs1 Hs2. apply (F2 s Hs2). rewrite E1.
    apply elem_of_app. by right.
  - intros s [Hs|Hs]%elem_of_app; [by apply F1|].
    intros Hin. apply (F2 s Hs). rewrite E1. apply elem_of_app. by left.
  - rewrite C2, C1, <- orb_assoc. f_equal.
    destruct n1, n2; simpl; try done.
Qed.

Lemma grows_antisym st st' : grows st st' → grows st' st → st' = st.
Proof.
  intros (n1 & E1 & _ & _ & C1) (n2 & E2 & _ & _ & _).
  assert (n1 = []) as ->.
  { apply (f_equal length) in E1, E2. rewrite length_app in E1, E2.
    destruct n1; [done|]. simpl in *. lia. }
  rewrite app_nil_r in E1.
  rewrite bool_decide_eq_false_2, orb_false_r in C1
    by (intros H; by apply H).
  destruct st, st'; simpl in *; congruence.
Qed.

Lemma grows_no_change st kn :
  grows st (kn, false) → st = (kn, false).
Proof.
  intros (new & E & _ & _ & C). simpl in *.
  symmetry in C. apply orb_false_iff in C as [C1 C2].
  apply bool_decide_eq_false in C2.
  assert (new = []) as -> by (destruct new; [done|]; by destruct C2).
  rewrite app_nil_r in E. destruct st; simpl in *; congruence.
Qed.

Lemma foldl_grows {A} (f : list Sentence.t * bool → A → list Sentence.t * bool)
    (l : list A) st :
  (∀ st x, grows st (f st x)) → grows st (foldl f st l).
Proof.
  intros Hf. revert st. induction l as [|x l IH]; intros st; simpl.
  - apply grows_refl.
  - eapply grows_trans; [apply Hf|apply IH].
Qed.

Lemma pair_step_cases x y st :
  pair_step x y st = st
  ∨ ∃ s1 s2, st.1 !! x = Some s1 ∧ st.1 !! y = Some s2
             ∧ subset_related s1 s2 ∧ (derive s1 s2 ∉ st.1)
             ∧ pair_step x y st = (st.1 ++ [derive s1 s2], true).
Proof.
  unfold pair_step.
  destruct (st.1 !! x) as [s1|] eqn:Hx; [|by left].
  destruct (st.1 !! y) as [s2|] eqn:Hy; [|by left].
  destruct (decide _) as [Hsub|]; [|by left].
  destruct (decide _) as [Hc|]; [|by left].
  right. exists s1, s2. split_and!; try done.
  by apply list_count_0.
Qed.

Lemma pair_step_grows x y st : grows st (pair_step x y st).
Proof.
  destruct (pair_step_cases x y st)
    as [->|(s1 & s2 & _ & _ & _ & Hnin & ->)]; [apply grows_refl|].
  exists [derive s1 s2]. split_and!; simpl.
  - done.
  - apply NoDup_singleton.
  - by intros s ->%list_elem_of_singleton.
  - by rewrite orb_true_r.
Qed.

Lemma row_step_grows x st : grows st (row_step x st).
Proof. apply foldl_grows. intros. apply pair_step_grows. Qed.

Lemma derive_pass_grows kn : grows (kn, false) (derive_pass kn).
Proof. apply foldl_grows. intros. apply row_step_grows. Qed.

Lemma derive_pass_app kn :
  ∃ new, derive_pass kn = (kn ++ new, bool_decide (new ≠ []))
         ∧ NoDup new ∧ (∀ s, s ∈ new → s ∉ kn).
Proof.
  destruct (derive_pass_grows kn) as (new & E & D & F & C).
  exists new. simpl in *. split_and!; try done.
  destruct (derive_pass kn); simpl in *; congruence.
Qed.

Lemma foldl_preserves {A S} (I : S → Prop) (f : S → A → S) (l : list A)
    (acc : S) :
  (∀ acc x, I acc → I (f acc x)) → I acc → I (foldl f acc l).
Proof.
  intros Hf. revert acc. induction l as [|x l IH]; intros acc; simpl; auto.
Qed.

Lemma pair_step_Forall Q x y st :
  derive_closed Q → Forall Q st.1 → Forall Q (pair_step x y st).1.
Proof.
  intros HQ Hst.
  destruct (pair_step_cases x y st)
    as [->|(s1 & s2 & H1 & H2 & Hsub & _ & ->)]; [done|].
  simpl. apply Forall_app. split; [done|]. apply Forall_singleton.
  rewrite Forall_forall in Hst.
  apply HQ; [| |done]; apply Hst; by eapply list_elem_of_lookup_2.
Qed.

Lemma derive_pass_Forall Q kn :
  derive_closed Q → Forall Q kn → Forall Q (derive_pass kn).1.
Proof.
  intros HQ Hkn. unfold derive_pass.
  apply (foldl_preserves (λ st, Forall Q st.1)); [|done].
  intros st x Hst. unfold row_step.
  apply (foldl_preserves (λ st, Forall Q st.1)); [|done].
  intros st' y Hst'. by apply pair_step_Forall.
Qed.

Lemma foldl_fixed {A} (f : list Sentence.t * bool → A → list Sentence.t * bool)
    (l : list A) st :
  (∀ st x, grows st (f st x)) → foldl f st l = st →
  ∀ x, x ∈ l → f st x = st.
Proof.
  intros Hf. induction l as [|a l IH]; intros Hfix x Hx.
  - by apply not_elem_of_nil in Hx.
  - simpl in Hfix.
    assert (f st a = st) as Ha.
    { apply grows_antisym; [apply Hf|].
      rewrite <- Hfix at 2. by apply foldl_grows. }
    rewrite Ha in Hfix.
    apply elem_of_cons in Hx as [->|Hx]; [done|by apply IH].
Qed.

Lemma derive_pass_no_change kn kn' :
  derive_pass kn = (kn', false) → kn' = kn ∧ derivation_closed kn.
Proof.
  intros Hpass.
  pose proof (derive_pass_grows kn) as Hg. rewrite Hpass in Hg.
  apply grows_no_change in Hg. injection Hg as ->.
  split; [done|]. intros x y s1 s2 Hx Hy Hsub.
  assert (row_step x (kn', false) = (kn', false)) as Hrow.
  { apply (foldl_fixed (λ st x, row_step x st) (seq 0 (length kn'))).
    - intros. apply row_step_grows.
    - exact Hpass.
    - apply elem_of_seq. apply lookup_lt_Some in Hx. lia. }
  assert (pair_step x y (kn', false) = (kn', false)) as Hpair.
  { apply (foldl_fixed (λ st y, pair_step x y st) (seq 0 (length kn'))).
    - intros. apply pair_step_grows.
    - exact Hrow.
    - apply elem_of_seq. apply lookup_lt_Some in Hy. lia. }
  destruct (pair_step_cases x y (kn', false))
    as [Heq|(t1 & t2 & _ & _ & _ & _ & Heq)].
  - unfold pair_step in Heq. simpl in Heq. rewrite Hx, Hy in Heq.
    unfold subset_related in Hsub. rewrite decide_True in Heq by done.
    destruct (decide (list_count (derive s1 s2) kn' = 0%nat)) as [Hc|Hc].
    + apply (f_equal (λ p, length p.1)) in Heq. simpl in Heq.
      rewrite length_app in Heq. simpl in Heq. lia.
    + destruct (decide (derive s1 s2 ∈ kn')) as [|Hn]; [done|].
      by apply list_count_0 in Hn.
  - rewrite Hpair in Heq. done.
Qed.

(** Every pair of entries is visited, and after the visit the derived
    sentence is in the list, where it stays. *)
Lemma grows_lookup st st' (i : nat) s :
  grows st st' → st.1 !! i = Some s → st'.1 !! i = Some s.
Proof. intros (new & -> & _) Hi. by apply lookup_app_l_Some. Qed.

Lemma grows_elem_of st st' s : grows st st' → s ∈ st.1 → s ∈ st'.1.
Proof. intros (new & -> & _) Hs. apply elem_of_app. by left. Qed.

Lemma foldl_visit {A} (f : list Sentence.t * bool → A → list Sentence.t * bool)
    (l : list A) st x :
  (∀ st x, grows st (f st x)) → x ∈ l →
  ∃ st1, grows st st1 ∧ grows (f st1 x) (foldl f st l).
Proof.
  intros Hf (l1 & l2 & ->)%list_elem_of_split.
  exists (foldl f st l1). rewrite foldl_app. simpl.
  split; by apply foldl_grows.
Qed.

Lemma pair_step_derived x y st s1 s2 :
  st.1 !! x = Some s1 → st.1 !! y = Some s2 → subset_related s1 s2 →
  derive s1 s2 ∈ (pair_step x y st).1.
Proof.
  intros Hx Hy Hsub. unfold pair_step. rewrite Hx, Hy.
  unfold subset_related in Hsub. rewrite decide_True by done.
  destruct (decide _) as [Hc|Hc]; simpl.
  - apply elem_of_app. right. by apply list_elem_of_singleton.
  - destruct (decide (derive s1 s2 ∈ st.1)) as [|Hn]; [done|].
    by apply list_count_0 in Hn.
Qed.

Lemma row_step_derived x y st s1 s2 :
  st.1 !! x = Some s1 → st.1 !! y = Some s2 → subset_related s1 s2 →
  derive s1 s2 ∈ (row_step x st).1.
Proof.
  intros Hx Hy Hsub. unfold row_step.
  destruct (foldl_visit (λ st y, pair_step x y st) (seq 0 (length st.1))
              st y) as (st1 & Hg1 & Hg2).
  - intros. apply pair_step_grows.
  - apply elem_of_seq. apply lookup_lt_Some in Hy. lia.
  - eapply grows_elem_of; [exact Hg2|].
    apply pair_step_derived; [| |done]; by eapply grows_lookup.
Qed.

Lemma derive_pass_derived kn x y s1 s2 :
  kn !! x = Some s1 → kn !! y = Some s2 → subset_related s1 s2 →
  derive s1 s2 ∈ (derive_pass kn).1.
Proof.
  intros Hx Hy Hsub. unfold derive_pass.
  destruct (foldl_visit (λ st x, row_step x st) (seq 0 (length kn))
              (kn, false) x) as (st1 & Hg1 & Hg2).
  - intros. apply row_step_grows.
  - apply elem_of_seq. apply lookup_lt_Some in Hx. lia.
  - eapply grows_elem_of; [exact Hg2|].
    apply (row_step_derived x y); [| |done]; by eapply grows_lookup.
Qed.

End derive_pass_facts.

(** * Sentences that are true of a mine layout

  [M] says which cells hold a mine.  A sentence is sound when its count
  is the number of mines among its cells. *)

Section soundness.
Import MinesweeperAI.
Variable M : Cell → bool.
Implicit Types (s : Sentence.t) (kn : list Sentence.t) (a : t).
Implicit Types (X Y sf mn : gset Cell) (c cell : Cell).

Lemma elem_of_true_mines c X : c ∈ true_mines M X ↔ M c = true ∧ c ∈ X.
Proof. exact (elem_of_filter (λ c, M c = true) X c). Qed.

Lemma mine_count_bounds X : 0 ≤ mine_count M X ≤ Z.of_nat (size X).
Proof.
  unfold mine_count. split; [lia|]. apply inj_le, subseteq_size.
  intros c. rewrite elem_of_true_mines. tauto.
Qed.

Lemma mine_count_difference X Y :
  mine_count M (X ∖ Y) = mine_count M X - mine_count M (X ∩ Y).
Proof.
  unfold mine_count.
  assert (true_mines M (X ∖ Y) = true_mines M X ∖ true_mines M (X ∩ Y)) as ->.
  { apply set_eq. intros c.
    rewrite elem_of_difference, !elem_of_true_mines.
    rewrite elem_of_difference, elem_of_intersection. tauto. }
  rewrite (size_difference (C:=gset Cell) (true_mines M X)
             (true_mines M (X ∩ Y))).
  - assert (size (true_mines M (X ∩ Y)) ≤ size (true_mines M X))%nat; [|lia].
    apply subseteq_size. intros c. rewrite !elem_of_true_mines.
    rewrite elem_of_intersection. tauto.
  - intros c. rewrite !elem_of_true_mines, elem_of_intersection. tauto.
Qed.

Lemma mine_count_all X :
  (∀ c, c ∈ X → M c = true) → mine_count M X = Z.of_nat (size X).
Proof.
  intros HX. unfold mine_count. f_equal. f_equal.
  apply set_eq. intros c. rewrite elem_of_true_mines. naive_solver.
Qed.

Lemma mine_count_none X : (∀ c, c ∈ X → M c = false) → mine_count M X = 0.
Proof.
  intros HX. unfold mine_count.
  assert (true_mines M X = ∅) as ->.
  { apply set_eq. intros c. rewrite elem_of_true_mines.
    split; [|by intros ?%not_elem_of_empty].
    intros [Hc Hin]. apply HX in Hin. congruence. }
  by rewrite (size_empty (C:=gset Cell)).
Qed.

Lemma mine_count_zero X c : mine_count M X = 0 → c ∈ X → M c = false.
Proof.
  unfold mine_count. intros Hz Hc.
  assert (size (true_mines M X) = 0%nat) as Hs by lia.
  apply size_empty_inv in Hs.
  destruct (M c) eqn:Hm; [|done].
  assert (c ∈ true_mines M X) as Hin by by apply elem_of_true_mines.
  rewrite Hs in Hin. by apply not_elem_of_empty in Hin.
Qed.

Lemma mine_count_full X c :
  mine_count M X = Z.of_nat (size X) → c ∈ X → M c = true.
Proof.
  unfold mine_count. intros Hz Hc.
  assert (true_mines M X = X) as Heq.
  { apply set_subseteq_size_eq; [|lia].
    intros c'. rewrite elem_of_true_mines. tauto. }
  rewrite <- Heq in Hc. by apply elem_of_true_mines in Hc as [? _].
Qed.

Lemma mine_count_singleton_inter X c :
  c ∈ X → mine_count M (X ∩ {[c]}) = if M c then 1 else 0.
Proof.
  intros Hc. replace (X ∩ {[c]}) with ({[c]} : gset Cell) by set_solver.
  destruct (M c) eqn:Hm.
  - rewrite mine_count_all by (by intros ? ->%elem_of_singleton).
    by rewrite (size_singleton (C:=gset Cell)).
  - by rewrite mine_count_none by (by intros ? ->%elem_of_singleton).
Qed.

Lemma sound_mark_safe cell s :
  M cell = false → sound M s → sound M (Sentence.mark_safe cell s).
Proof.
  unfold sound, Sentence.mark_safe. intros Hm Hs.
  destruct (decide _) as [Hin|]; [|done].
  cbn [Sentence.cells Sentence.count].
  rewrite mine_count_difference, mine_count_singleton_inter, Hm by done.
  lia.
Qed.

Lemma sound_mark_mine cell s :
  M cell = true → sound M s → sound M (Sentence.mark_mine cell s).
Proof.
  unfold sound, Sentence.mark_mine. intros Hm Hs.
  destruct (decide _) as [Hin|]; [|done].
  cbn [Sentence.cells Sentence.count].
  rewrite mine_count_difference, mine_count_singleton_inter, Hm by done.
  lia.
Qed.

Lemma mine_count_subseteq_difference X Y :
  Y ⊆ X → mine_count M (X ∖ Y) = mine_count M X - mine_count M Y.
Proof.
  intros HY. rewrite mine_count_difference.
  by replace (X ∩ Y) with Y by set_solver.
Qed.

Lemma sound_derive : derive_closed (sound M).
Proof.
  intros s1 s2 H1 H2 Hsub. unfold sound, derive in *.
  cbn [Sentence.cells Sentence.count].
  destruct Hsub as [Hsub|Hsub].
  - rewrite symmetric_difference_comm.
    rewrite symmetric_difference_subseteq by done.
    rewrite mine_count_subseteq_difference by done.
    pose proof (mine_count_bounds (Sentence.cells s1 ∖ Sentence.cells s2)).
    rewrite mine_count_subseteq_difference in H by done. lia.
  - rewrite symmetric_difference_subseteq by done.
    rewrite mine_count_subseteq_difference by done.
    pose proof (mine_count_bounds (Sentence.cells s2 ∖ Sentence.cells s1)).
    rewrite mine_count_subseteq_difference in H by done. lia.
Qed.

Lemma sound_remove_safes sf s :
  (∀ c, c ∈ sf → M c = false) → sound M s → sound M (remove_safes sf s).
Proof.
  intros Hsf Hs. rewrite remove_safes_spec. unfold sound in *.
  cbn [Sentence.cells Sentence.count].
  rewrite mine_count_difference,
    (mine_count_none (Sentence.cells s ∩ sf)); [lia|].
  intros c [_ Hc]%elem_of_intersection. by apply Hsf.
Qed.

Lemma sound_remove_mines mn s :
  (∀ c, c ∈ mn → M c = true) → sound M s → sound M (remove_mines mn s).
Proof.
  intros Hmn Hs. rewrite remove_mines_spec. unfold sound in *.
  cbn [Sentence.cells Sentence.count].
  rewrite mine_count_difference,
    (mine_count_all (Sentence.cells s ∩ mn)); [lia|].
  intros c [_ Hc]%elem_of_intersection. by apply Hmn.
Qed.

Lemma sound_count_bounds s :
  sound M s → 0 ≤ Sentence.count s ≤ Z.of_nat (size (Sentence.cells s)).
Proof. unfold sound. intros ->. apply mine_count_bounds. Qed.

End soundness.

(** * The engine operations as functions on the state *)

Section engine_facts.
Import MinesweeperAI.
Implicit Types (s : Sentence.t) (kn : list Sentence.t) (a : t).
Implicit Types (sf mn : gset Cell) (c cell : Cell).

Lemma add_knowledge_nonzero fuel cell count a :
  count ≠ 0 →
  add_knowledge fuel cell count a
  = kn ← closure_loop fuel (safes a) (mines a) true
           (observed_knowledge cell count a);
    Some (mark_known_mines
            (mk (height a) (width a) (moves_made a ∪ {[cell]}) (mines a)
                (safes a) kn)).
Proof.
  intros Hc. unfold add_knowledge. rewrite decide_True by done.
  cbn. by destruct (closure_loop _ _ _ _ _).
Qed.

Lemma add_knowledge_zero fuel cell a :
  add_knowledge fuel cell 0 a
  = Some (mark_known_mines
            (mk (height a) (width a) (moves_made a ∪ {[cell]}) (mines a)
                (add_safe_neighbours (safes a)
                   (neighbours cell.1 cell.2))
                (Sentence.mark_safe cell <$> knowledge a))).
Proof. reflexivity. Qed.

Lemma closure_loop_skip fuel sf mn s :
  closure_loop fuel sf mn true [s] = Some [s].
Proof. by destruct fuel. Qed.

Lemma closure_loop_unfold fuel sf mn kn :
  length kn ≠ 1%nat →
  closure_loop (S fuel) sf mn true kn
  = closure_loop fuel sf mn (derive_pass kn).2
      (cleanup sf mn (derive_pass kn).1).
Proof.
  intros Hlen. cbn [closure_loop].
  by rewrite bool_decide_eq_true_2 by done.
Qed.

Lemma closure_loop_stop fuel sf mn kn :
  closure_loop fuel sf mn false kn = Some kn.
Proof. by destruct fuel. Qed.

Lemma cleanup_fmap sf mn kn : cleanup sf mn kn = cleanup_one sf mn <$> kn.
Proof. unfold cleanup. by rewrite <- list_fmap_compose. Qed.

Lemma cleanup_one_spec sf mn s :
  cleanup_one sf mn s
  = Sentence.mk (Sentence.cells s ∖ sf ∖ mn)
      (Sentence.count s
       - Z.of_nat (size ((Sentence.cells s ∖ sf) ∩ mn))).
Proof.
  unfold cleanup_one. by rewrite remove_safes_spec, remove_mines_spec.
Qed.

Lemma closure_loop_Forall (Q : Sentence.t → Prop) fuel sf mn change kn kn' :
  derive_closed Q → (∀ s, Q s → Q (cleanup_one sf mn s)) →
  Forall Q kn → closure_loop fuel sf mn change kn = Some kn' →
  Forall Q kn'.
Proof.
  intros HQ Hclean. revert change kn.
  induction fuel as [|fuel IH]; intros change kn Hkn Hloop.
  - simpl in Hloop. destruct (change && _); [done|]. by injection Hloop as <-.
  - cbn [closure_loop] in Hloop. destruct (change && _).
    + eapply IH; [|exact Hloop].
      rewrite cleanup_fmap. apply Forall_fmap.
      eapply Forall_impl; [by apply derive_pass_Forall|]. apply Hclean.
    + by injection Hloop as <-.
Qed.

Lemma derive_pass_nil : derive_pass [] = ([], false).
Proof. reflexivity. Qed.

Lemma length_cleanup sf mn kn : length (cleanup sf mn kn) = length kn.
Proof. unfold cleanup. by rewrite !length_fmap. Qed.

Lemma derive_pass_length kn :
  length kn ≠ 1%nat → length (derive_pass kn).1 ≠ 1%nat.
Proof.
  intros Hlen. destruct (derive_pass_app kn) as (new & E & _ & _).
  rewrite E. simpl. rewrite length_app.
  destruct kn as [|s kn]; [|destruct kn; simpl in *; [done|lia]].
  rewrite derive_pass_nil in E. injection E as <- _. done.
Qed.

(** What a finished loop leaves when it was entered: the cleanup of a
    list that the last pass found closed under derivation. *)
Lemma closure_loop_result fuel sf mn kn kn' :
  length kn ≠ 1%nat →
  closure_loop fuel sf mn true kn = Some kn' →
  ∃ pre, derivation_closed pre ∧ kn' = cleanup sf mn pre.
Proof.
  revert kn. induction fuel as [|fuel IH]; intros kn Hlen Hloop.
  - simpl in Hloop. by rewrite bool_decide_eq_true_2 in Hloop by done.
  - rewrite closure_loop_unfold in Hloop by done.
    destruct (derive_pass kn) as [kn1 ch] eqn:Hpass. simpl in Hloop.
    destruct ch.
    + apply IH in Hloop; [done|]. rewrite length_cleanup.
      pose proof (derive_pass_length kn Hlen) as Hl. by rewrite Hpass in Hl.
    + rewrite closure_loop_stop in Hloop. injection Hloop as <-.
      apply derive_pass_no_change in Hpass as [-> Hclosed].
      by exists kn.
Qed.

(** A sentence without cells and with a negative count keeps the loop
    going: with the sentence of greatest count it derives one of greater
    count still, in every pass. *)
Lemma max_count_sentence kn :
  kn ≠ [] →
  ∃ s, s ∈ kn ∧ ∀ s', s' ∈ kn → Sentence.count s' ≤ Sentence.count s.
Proof.
  induction kn as [|s kn IH]; [done|]. intros _.
  destruct kn as [|s1 kn].
  - exists s. split; [by left|].
    by intros s' ->%list_elem_of_singleton.
  - destruct IH as (m & Hm & Hmax); [done|].
    destruct (decide (Sentence.count m ≤ Sentence.count s)) as [Hle|Hgt].
    + exists s. split; [by left|].
      intros s' [->|Hs']%elem_of_cons; [done|].
      specialize (Hmax s' Hs'). lia.
    + exists m. split; [by right|].
      intros s' [->|Hs']%elem_of_cons; [lia|by apply Hmax].
Qed.

Lemma derive_pass_negative_count kn s0 :
  s0 ∈ kn → Sentence.cells s0 = ∅ → Sentence.count s0 < 0 →
  (derive_pass kn).2 = true.
Proof.
  intros Hs0 Hcells Hneg.
  destruct (max_count_sentence kn) as (m & Hm & Hmax).
  { intros ->. by apply not_elem_of_nil in Hs0. }
  apply list_elem_of_lookup_1 in Hs0 as [x Hx].
  pose proof Hm as Hm'. apply list_elem_of_lookup_1 in Hm' as [y Hy].
  assert (derive s0 m ∈ (derive_pass kn).1) as Hd.
  { apply (derive_pass_derived kn x y); [done|done|].
    right. rewrite Hcells. apply empty_subseteq. }
  assert (derive s0 m ∉ kn) as Hfresh.
  { intros Hin. apply Hmax in Hin. unfold derive in Hin. simpl in Hin.
    apply list_elem_of_lookup_2 in Hx. apply Hmax in Hx. lia. }
  destruct (derive_pass_app kn) as (new & E & _ & _).
  rewrite E in *. simpl in *. apply bool_decide_eq_true.
  intros ->. rewrite app_nil_r in Hd. done.
Qed.

Lemma closure_loop_diverges fuel sf mn kn s0 :
  s0 ∈ kn → Sentence.cells s0 = ∅ → Sentence.count s0 < 0 →
  length kn ≠ 1%nat →
  closure_loop fuel sf mn true kn = None.
Proof.
  revert kn s0. induction fuel as [|fuel IH]; intros kn s0 Hs0 Hcells Hneg Hlen.
  - simpl. by rewrite bool_decide_eq_true_2 by done.
  - rewrite closure_loop_unfold by done.
    rewrite (derive_pass_negative_count kn s0) by done.
    apply (IH _ (cleanup_one sf mn s0)).
    + rewrite cleanup_fmap. apply list_elem_of_fmap_2.
      destruct (derive_pass_app kn) as (new & -> & _). simpl.
      apply elem_of_app. by left.
    + rewrite cleanup_one_spec. simpl. rewrite Hcells. set_solver.
    + rewrite cleanup_one_spec. simpl. rewrite Hcells.
      assert ((∅ ∖ sf) ∩ mn = ∅) as -> by set_solver.
      rewrite (size_empty (C:=gset Cell)). lia.
    + rewrite length_cleanup. by apply derive_pass_length.
Qed.

Lemma cleanup_one_disjoint sf mn s :
  Sentence.cells (cleanup_one sf mn s) ## sf
  ∧ Sentence.cells (cleanup_one sf mn s) ## mn.
Proof. rewrite cleanup_one_spec. simpl. set_solver. Qed.

(** ** Monotonicity of the three sets *)

Lemma subseteq_add_safe_neighbours sf (temp : list Cell) :
  sf ⊆ add_safe_neighbours sf temp.
Proof. intros c Hc. apply elem_of_add_safe_neighbours. by left. Qed.

Lemma subseteq_mark_known_mines a : mines a ⊆ mines (mark_known_mines a).
Proof. intros c Hc. apply elem_of_mark_known_mines. by left. Qed.

Lemma add_knowledge_sets_grow fuel cell count a a' :
  add_knowledge fuel cell count a = Some a' → sets_grow a a'.
Proof.
  unfold sets_grow. destruct (decide (count = 0)) as [->|Hc].
  - rewrite add_knowledge_zero. intros Heq. injection Heq as <-.
    split_and!.
    + apply subseteq_add_safe_neighbours.
    + etrans; [|apply subseteq_mark_known_mines]. done.
    + apply union_subseteq_l.
  - rewrite add_knowledge_nonzero by done.
    destruct (closure_loop _ _ _ _ _) as [kn|]; [|done].
    intros Heq. injection Heq as <-. split_and!.
    + done.
    + etrans; [|apply subseteq_mark_known_mines]. done.
    + apply union_subseteq_l.
Qed.

Lemma mark_mine_sets_grow cell a : sets_grow a (mark_mine cell a).
Proof. unfold sets_grow. simpl. set_solver. Qed.

Lemma mark_safe_sets_grow cell a : sets_grow a (mark_safe cell a).
Proof. unfold sets_grow. simpl. set_solver. Qed.

Lemma make_safe_move_sets_grow to_list a :
  sets_grow a (make_safe_move to_list a).2.
Proof.
  unfold make_safe_move, sets_grow.
  destruct (decide _); [|done].
  destruct (list_find _ _) as [[? ele]|]; [|done]. simpl. set_solver.
Qed.

End engine_facts.

(** * Operations that agree with a mine layout keep the state consistent *)

Section consistency.
Import MinesweeperAI.
Variable M : Cell → bool.
Implicit Types (s : Sentence.t) (kn : list Sentence.t) (a : t).
Implicit Types (sf mn : gset Cell) (c cell : Cell).

Lemma init_consistent h w : consistent M (init h w).
Proof.
  split_and!; [constructor| |]; intros c Hc;
    by apply not_elem_of_empty in Hc.
Qed.

Lemma sound_cleanup_one sf mn s :
  (∀ c, c ∈ sf → M c = false) → (∀ c, c ∈ mn → M c = true) →
  sound M s → sound M (cleanup_one sf mn s).
Proof.
  intros Hsf Hmn Hs. unfold cleanup_one.
  by apply sound_remove_mines, sound_remove_safes.
Qed.

Lemma closure_loop_sound fuel sf mn change kn kn' :
  (∀ c, c ∈ sf → M c = false) → (∀ c, c ∈ mn → M c = true) →
  Forall (sound M) kn → closure_loop fuel sf mn change kn = Some kn' →
  Forall (sound M) kn'.
Proof.
  intros Hsf Hmn. apply closure_loop_Forall.
  - apply sound_derive.
  - intros s. by apply sound_cleanup_one.
Qed.

Lemma mark_known_mines_consistent a :
  consistent M a → consistent M (mark_known_mines a).
Proof.
  intros (Hkn & Hsf & Hmn). split_and!; [done|done|].
  intros c [Hc|(s & Hs & Hdet & Hc)]%elem_of_mark_known_mines;
    [by apply Hmn|].
  rewrite Forall_forall in Hkn. specialize (Hkn s Hs).
  unfold determined, sound in *.
  eapply mine_count_full; [|done]. congruence.
Qed.

Lemma observed_knowledge_sound cell count a :
  observation M cell count → Forall (sound M) (knowledge a) →
  Forall (sound M) (observed_knowledge cell count a).
Proof.
  intros [Hcell Hcount] Hkn. apply Forall_app. split.
  - apply Forall_fmap. eapply Forall_impl; [done|].
    intros s. by apply sound_mark_safe.
  - apply Forall_singleton. done.
Qed.

Lemma add_knowledge_consistent fuel cell count a a' :
  observation M cell count → consistent M a →
  add_knowledge fuel cell count a = Some a' → consistent M a'.
Proof.
  intros Hobs (Hkn & Hsf & Hmn).
  destruct (decide (count = 0)) as [->|Hc].
  - rewrite add_knowledge_zero. intros Heq. injection Heq as <-.
    apply mark_known_mines_consistent. split_and!; cbn [knowledge safes mines].
    + apply Forall_fmap. eapply Forall_impl; [done|].
      intros s. apply sound_mark_safe, Hobs.
    + intros c [Hc|[Hc _]]%elem_of_add_safe_neighbours; [by apply Hsf|].
      destruct Hobs as [_ Hz]. symmetry in Hz.
      eapply mine_count_zero; [exact Hz|]. by apply elem_of_list_to_set.
    + done.
  - rewrite add_knowledge_nonzero by done.
    destruct (closure_loop _ _ _ _ _) as [kn|] eqn:Hloop; [|done].
    intros Heq. injection Heq as <-.
    apply mark_known_mines_consistent. split_and!; cbn [knowledge safes mines].
    + eapply closure_loop_sound; [| | |exact Hloop]; try done.
      by apply observed_knowledge_sound.
    + done.
    + done.
Qed.

Lemma mark_mine_consistent cell a :
  M cell = true → consistent M a → consistent M (mark_mine cell a).
Proof.
  intros Hcell (Hkn & Hsf & Hmn). split_and!; simpl.
  - apply Forall_fmap. eapply Forall_impl; [done|].
    intros s. by apply sound_mark_mine.
  - done.
  - intros c [Hc| ->%elem_of_singleton]%elem_of_union; [by apply Hmn|done].
Qed.

Lemma mark_safe_consistent cell a :
  M cell = false → consistent M a → consistent M (mark_safe cell a).
Proof.
  intros Hcell (Hkn & Hsf & Hmn). split_and!; simpl.
  - apply Forall_fmap. eapply Forall_impl; [done|].
    intros s. by apply sound_mark_safe.
  - intros c [Hc| ->%elem_of_singleton]%elem_of_union; [by apply Hsf|done].
  - done.
Qed.

Lemma make_safe_move_consistent to_list a :
  consistent M a → consistent M (make_safe_move to_list a).2.
Proof.
  unfold make_safe_move. destruct (decide _); [|done].
  by destruct (list_find _ _) as [[? ele]|].
Qed.

Lemma consistent_disjoint a : consistent M a → safes a ## mines a.
Proof.
  intros (_ & Hsf & Hmn) c Hc1 Hc2.
  apply Hsf in Hc1. apply Hmn in Hc2. congruence.
Qed.

End consistency.

(** * Termination of the [while] loop

  Once a cleanup has run, the sentences mention no cell of [safes] or
  [mines], later cleanups change nothing, and every pass that sets
  [change] adds a sentence that the list did not hold.  The sentences
  over a finite set of cells with counts in a finite range are finitely
  many, so only finitely many such passes can follow. *)

Section termination.
Import MinesweeperAI.
Implicit Types (s : Sentence.t) (kn : list Sentence.t).
Implicit Types (U sf mn : gset Cell) (B : Z).

Lemma filter_elem_of_sublists {A} (P : A → Prop) `{∀ x, Decision (P x)}
    (l : list A) :
  filter P l ∈ sublists l.
Proof.
  induction l as [|x l IH]; simpl.
  - by left.
  - rewrite filter_cons. apply elem_of_app. destruct (decide (P x)).
    + right. by apply list_elem_of_fmap_2.
    + by left.
Qed.

Lemma bounded_all_sentences U B s : bounded U B s → s ∈ all_sentences U B.
Proof.
  intros [Hsub Hc]. unfold all_sentences.
  apply list_elem_of_bind.
  exists (filter (λ c, c ∈ Sentence.cells s) (elements U)). split.
  - apply list_elem_of_bind. exists (Sentence.count s). split.
    + apply list_elem_of_singleton. destruct s as [X n]. simpl in *.
      f_equal. apply set_eq. intros c.
      rewrite elem_of_list_to_set, list_elem_of_filter, elem_of_elements.
      set_solver.
    + apply elem_of_seqZ. lia.
  - apply filter_elem_of_sublists.
Qed.

Lemma settled_derive U B sf mn : derive_closed (settled U B sf mn).
Proof.
  intros s1 s2 [[HU1 HB1] [Hs1 Hm1]] [[HU2 HB2] [Hs2 Hm2]] _.
  unfold settled, bounded, clean, derive, symmetric_difference. simpl.
  split_and!; [set_solver|lia|lia|set_solver|set_solver].
Qed.

Lemma cleanup_one_clean sf mn s : clean sf mn s → cleanup_one sf mn s = s.
Proof.
  intros [Hsf Hmn]. rewrite cleanup_one_spec. destruct s as [X n].
  cbn [Sentence.cells Sentence.count] in *.
  assert ((X ∖ sf) ∩ mn = ∅) as -> by set_solver.
  rewrite (size_empty (C:=gset Cell)). f_equal; [set_solver|lia].
Qed.

Lemma cleanup_settled U B sf mn kn :
  Forall (settled U B sf mn) kn → cleanup sf mn kn = kn.
Proof.
  intros Hkn. rewrite cleanup_fmap.
  induction Hkn as [|s kn [_ Hs] _ IH]; [done|].
  by rewrite fmap_cons, IH, cleanup_one_clean.
Qed.

Lemma missing_app U B kn new s :
  s ∈ new → s ∉ kn → bounded U B s →
  (size (missing U B (kn ++ new)) < size (missing U B kn))%nat.
Proof.
  intros Hnew Hkn Hb. apply subset_size. unfold missing.
  apply bounded_all_sentences in Hb. split.
  - rewrite list_to_set_app_L. set_solver.
  - intros Hsub.
    assert (s ∈ (list_to_set (all_sentences U B) ∖ list_to_set kn
                 : gset Sentence.t)) as Hs.
    { apply elem_of_difference. rewrite !elem_of_list_to_set. done. }
    apply Hsub in Hs. apply elem_of_difference in Hs as [_ Hs].
    apply Hs. rewrite elem_of_list_to_set, elem_of_app. by right.
Qed.

Lemma closure_loop_settled U B sf mn fuel change kn :
  Forall (settled U B sf mn) kn →
  (size (missing U B kn) < fuel)%nat →
  is_Some (closure_loop fuel sf mn change kn).
Proof.
  revert change kn.
  induction fuel as [|fuel IH]; intros change kn Hkn Hfuel; [lia|].
  cbn [closure_loop]. destruct (change && _); [|done].
  destruct (derive_pass_app kn) as (new & Hpass & _ & Hfresh).
  pose proof (derive_pass_Forall _ kn (settled_derive U B sf mn) Hkn)
    as Hall.
  rewrite Hpass in *. cbn [fst snd] in *.
  rewrite (cleanup_settled U B) by done.
  destruct new as [|s new].
  - rewrite bool_decide_eq_false_2 by (intros H; by apply H).
    rewrite closure_loop_stop. done.
  - apply IH; [done|].
    assert (size (missing U B (kn ++ s :: new)) < size (missing U B kn))%nat;
      [|lia].
    apply (missing_app U B kn (s :: new) s).
    + by left.
    + apply Hfresh. by left.
    + apply Forall_app in Hall as [_ Hall].
      apply Forall_cons in Hall as [[Hb _] _]. done.
Qed.

Lemma within_mentioned kn : Forall (within (mentioned kn)) kn.
Proof.
  apply Forall_forall. intros s Hs c Hc. unfold mentioned.
  apply elem_of_union_list. exists (Sentence.cells s). split; [|done].
  by apply list_elem_of_fmap_2.
Qed.

Lemma within_derive U : derive_closed (within U).
Proof.
  intros s1 s2 H1 H2 _. unfold within, derive, symmetric_difference in *.
  simpl. set_solver.
Qed.

Lemma within_cleanup_one U sf mn s :
  within U s → within U (cleanup_one sf mn s).
Proof. unfold within. rewrite cleanup_one_spec. simpl. set_solver. Qed.

Variable M : Cell → bool.

Lemma first_pass_settled sf mn kn :
  (∀ c, c ∈ sf → M c = false) → (∀ c, c ∈ mn → M c = true) →
  Forall (sound M) kn →
  Forall (settled (mentioned kn) (Z.of_nat (size (mentioned kn))) sf mn)
    (cleanup sf mn (derive_pass kn).1).
Proof.
  intros Hsf Hmn Hkn. rewrite cleanup_fmap. apply Forall_fmap.
  pose proof (derive_pass_Forall _ kn (sound_derive M) Hkn) as H1.
  pose proof (derive_pass_Forall _ kn (within_derive (mentioned kn))
                (within_mentioned kn)) as H2.
  rewrite Forall_forall in H1, H2. apply Forall_forall. intros s Hs.
  specialize (H1 s Hs). specialize (H2 s Hs).
  pose proof (sound_cleanup_one M sf mn s Hsf Hmn H1) as H3.
  pose proof (within_cleanup_one _ sf mn s H2) as H4.
  apply sound_count_bounds in H3. simpl.
  split; [split|]; [done| |apply cleanup_one_disjoint].
  assert (size (Sentence.cells (cleanup_one sf mn s))
          ≤ size (mentioned kn))%nat by by apply subseteq_size.
  lia.
Qed.

(** On sound sentences and with [safes] and [mines] that agree with the
    layout, the loop ends. *)
Lemma closure_loop_terminates sf mn kn :
  (∀ c, c ∈ sf → M c = false) → (∀ c, c ∈ mn → M c = true) →
  Forall (sound M) kn →
  ∃ fuel, is_Some (closure_loop fuel sf mn true kn).
Proof.
  intros Hsf Hmn Hkn.
  destruct (decide (length kn = 1%nat)) as [Hlen|Hlen].
  { exists 0%nat. simpl.
    by rewrite bool_decide_eq_false_2 by (by intros ?). }
  set (U := mentioned kn). set (B := Z.of_nat (size U)).
  exists (S (S (size (missing U B (cleanup sf mn (derive_pass kn).1))))).
  rewrite closure_loop_unfold by done.
  apply (closure_loop_settled U B); [|lia].
  by apply first_pass_settled.
Qed.

Lemma add_knowledge_terminates cell count a :
  observation M cell count → consistent M a →
  ∃ fuel, is_Some (add_knowledge fuel cell count a).
Proof.
  intros Hobs (Hkn & Hsf & Hmn).
  destruct (decide (count = 0)) as [->|Hc].
  { exists 0%nat. by rewrite add_knowledge_zero. }
  destruct (closure_loop_terminates (safes a) (mines a)
              (observed_knowledge cell count a)) as (fuel & kn' & Hloop);
    [done|done|by apply observed_knowledge_sound|].
  exists fuel. rewrite add_knowledge_nonzero, Hloop by done. done.
Qed.

End termination.

(** * Observations reported by a board *)

Section board.
Import MinesweeperAI.
Implicit Types (g : Minesweeper.t) (c cell : Cell).

Lemma seqZ_3 (m : Z) : seqZ m 3 = [m; m + 1; m + 2].
Proof.
  unfold seqZ. change (Z.to_nat 3) with 3%nat. cbn [seq fmap list_fmap].
  replace (Z.of_nat 0 + m) with m by lia.
  replace (Z.of_nat 1 + m) with (m + 1) by lia.
  by replace (Z.of_nat 2 + m) with (m + 2) by lia.
Qed.

Lemma range_3 (m : Z) : range (m - 1) (m + 2) = [m - 1; m; m + 1].
Proof.
  unfold range. replace (m + 2 - (m - 1)) with 3 by lia.
  rewrite seqZ_3.
  replace (m - 1 + 1) with m by lia. by replace (m - 1 + 2) with (m + 1) by lia.
Qed.

Lemma mine_count_insert (M : Cell → bool) c (X : gset Cell) :
  c ∉ X → mine_count M ({[c]} ∪ X) = Z.b2z (M c) + mine_count M X.
Proof.
  intros Hc. unfold mine_count.
  assert (true_mines M ({[c]} ∪ X)
          = true_mines M {[c]} ∪ true_mines M X) as ->.
  { apply set_eq. intros x.
    rewrite elem_of_union, !elem_of_true_mines, elem_of_union. tauto. }
  rewrite (size_union (C:=gset Cell) (true_mines M {[c]}) (true_mines M X)).
  - assert (Z.of_nat (size (true_mines M {[c]})) = Z.b2z (M c)); [|lia].
    fold (mine_count M {[c]}). destruct (M c) eqn:Hm; simpl.
    + rewrite mine_count_all by (by intros ? ->%elem_of_singleton).
      by rewrite (size_singleton (C:=gset Cell)).
    + by rewrite mine_count_none by (by intros ? ->%elem_of_singleton).
  - intros x [_ ->%elem_of_singleton]%elem_of_true_mines
      [_ ?]%elem_of_true_mines. done.
Qed.

Lemma mine_count_list_to_set (M : Cell → bool) (l : list Cell) :
  NoDup l →
  mine_count M (list_to_set l) = foldr (λ c n, Z.b2z (M c) + n) 0 l.
Proof.
  induction 1 as [|c l Hc Hnd IH]; simpl.
  - rewrite mine_count_none; [done|].
    by intros ? ?%not_elem_of_empty.
  - rewrite mine_count_insert, IH; [done|].
    by rewrite elem_of_list_to_set.
Qed.

Lemma NoDup_neighbours i j : NoDup (neighbours i j).
Proof.
  unfold neighbours.
  repeat (apply NoDup_cons_2;
    [intros H;
     repeat (apply elem_of_cons in H as [H|H]; [injection H; lia|]);
     by apply not_elem_of_nil in H|]).
  apply NoDup_nil_2.
Qed.

Lemma nearby_mines_mine_count g cell :
  Minesweeper.nearby_mines g cell
  = mine_count (mine_at g) (list_to_set (neighbours cell.1 cell.2)).
Proof.
  destruct cell as [i j].
  rewrite mine_count_list_to_set by apply NoDup_neighbours.
  unfold Minesweeper.nearby_mines, neighbours, mine_at.
  cbn [fst snd]. rewrite !range_3. cbn [foldl foldr fst snd].
  rewrite (decide_True (P:=(i, j) = (i, j))) by done.
  rewrite !decide_False by (intros [=]; lia).
  repeat match goal with
  | |- context [if Minesweeper.in_bounds g ?a ?b then _ else _] =>
      destruct (Minesweeper.in_bounds g a b); cbn [andb Z.b2z]
  end;
  repeat match goal with
  | |- context [Minesweeper.board_at g ?a ?b] =>
      destruct (Minesweeper.board_at g a b); cbn [andb Z.b2z]
  end; lia.
Qed.

End board.

(** * The claims *)

Section claims.
Import MinesweeperAI.
Implicit Types (s : Sentence.t) (kn : list Sentence.t) (a : t).
Implicit Types (g : Minesweeper.t) (c cell : Cell) (o : op).

Lemma reported_observation g cell count :
  reported g cell count → observation (mine_at g) cell count.
Proof.
  intros (Hin & Hmine & ->). split.
  - unfold mine_at. unfold Minesweeper.is_mine in Hmine.
    by rewrite Hin, Hmine.
  - apply nearby_mines_mine_count.
Qed.

Lemma observed_consistent g a : observed g a → consistent (mine_at g) a.
Proof.
  induction 1 as [h w|a cell count fuel a' _ IH Hrep Hadd].
  - apply init_consistent.
  - eapply add_knowledge_consistent; [|exact IH|exact Hadd].
    by apply reported_observation.
Qed.

Lemma run_op_consistent M to_list fuel o a a' :
  agrees M o → consistent M a → run_op to_list fuel o a = Some a' →
  consistent M a'.
Proof.
  destruct o as [cell count|cell|cell|]; simpl; intros Hag Ha Hrun.
  - by eapply add_knowledge_consistent.
  - injection Hrun as <-. by apply mark_mine_consistent.
  - injection Hrun as <-. by apply mark_safe_consistent.
  - injection Hrun as <-. by apply make_safe_move_consistent.
Qed.

Lemma run_consistent M to_list a ops a' :
  Forall (agrees M) ops → consistent M a → run to_list a ops a' →
  consistent M a'.
Proof.
  intros Hops Ha Hrun. induction Hrun as [a|a o a1 ops a2 fuel Ho _ IH].
  - done.
  - apply Forall_cons in Hops as [Hag Hops]. apply IH; [done|].
    by eapply run_op_consistent.
Qed.

Lemma run_ops_run to_list fuel ops a a' :
  run_ops to_list fuel ops a = Some a' → run to_list a ops a'.
Proof.
  revert a. induction ops as [|o ops IH]; intros a; simpl.
  - intros [= <-]. constructor.
  - destruct (run_op to_list fuel o a) as [a1|] eqn:Ho; [|done].
    simpl. intros Hrun. econstructor; [exact Ho|by apply IH].
Qed.

Lemma run_op_sets_grow to_list fuel o a a' :
  run_op to_list fuel o a = Some a' → sets_grow a a'.
Proof.
  destruct o as [cell count|cell|cell|]; simpl; intros Hrun.
  - by eapply add_knowledge_sets_grow.
  - injection Hrun as <-. apply mark_mine_sets_grow.
  - injection Hrun as <-. apply mark_safe_sets_grow.
  - injection Hrun as <-. apply make_safe_move_sets_grow.
Qed.

Lemma sets_grow_trans a1 a2 a3 :
  sets_grow a1 a2 → sets_grow a2 a3 → sets_grow a1 a3.
Proof.
  intros (? & ? & ?) (? & ? & ?). split_and!; by etrans.
Qed.

(** Operations that agree with a layout always return. *)
Lemma run_op_returns M to_list o a :
  agrees M o → consistent M a → ∃ fuel, is_Some (run_op to_list fuel o a).
Proof.
  destruct o as [cell count|cell|cell|]; simpl; intros Hag Ha.
  - by apply (add_knowledge_terminates M).
  - by exists 0%nat.
  - by exists 0%nat.
  - by exists 0%nat.
Qed.

Lemma consistent_run_exists M to_list ops a :
  Forall (agrees M) ops → consistent M a → ∃ a', run to_list a ops a'.
Proof.
  intros Hops. revert a. induction Hops as [|o ops Hag _ IH]; intros a Ha.
  - exists a. constructor.
  - destruct (run_op_returns M to_list o a Hag Ha) as (fuel & a1 & Ho).
    destruct (IH a1) as [a' Hrun]; [by eapply run_op_consistent|].
    exists a'. by econstructor.
Qed.

(** With a count other than zero, [add_knowledge] leaves [safes] as it
    was. *)
Lemma add_knowledge_nonzero_safes fuel cell count a a' :
  count ≠ 0 → add_knowledge fuel cell count a = Some a' →
  safes a' = safes a ∧ moves_made a' = moves_made a ∪ {[cell]}.
Proof.
  intros Hc. rewrite add_knowledge_nonzero by done.
  destruct (closure_loop _ _ _ _ _) as [kn|]; [|done].
  intros Heq. by injection Heq as <-.
Qed.

(** What [make_safe_move] returns when it returns a cell, for an
    enumeration [to_list] that lists the elements of the set. *)
Lemma make_safe_move_some to_list a c a' :
  (∀ (X : gset Cell) x, x ∈ to_list X → x ∈ X) →
  make_safe_move to_list a = (Some c, a') →
  c ∈ safes a ∧ (c ∉ moves_made a)
  ∧ moves_made a' = moves_made a ∪ {[c]}
  ∧ safes a' = safes a ∧ mines a' = mines a ∧ knowledge a' = knowledge a.
Proof.
  intros Hlist. unfold make_safe_move.
  destruct (decide _); [|done].
  destruct (list_find _ _) as [[i ele]|] eqn:Hfind; [|done].
  intros Heq. injection Heq as -> <-.
  apply list_find_Some in Hfind as (Hi & Hnot & _).
  split_and!; try done.
  apply Hlist. by eapply list_elem_of_lookup_2.
Qed.

Lemma make_safe_move_none to_list a a' :
  (∀ (X : gset Cell) x, x ∈ X → x ∈ to_list X) →
  make_safe_move to_list a = (None, a') →
  a' = a ∧ ((size (safes a) ≤ 1)%nat ∨ safes a ⊆ moves_made a).
Proof.
  intros Hlist. unfold make_safe_move.
  destruct (decide _) as [Hsize|Hsize].
  - destruct (list_find _ _) as [[i ele]|] eqn:Hfind; [done|].
    intros Heq. injection Heq as <-. split; [done|]. right.
    intros x Hx. apply Hlist in Hx.
    rewrite list_find_None, Forall_forall in Hfind.
    specialize (Hfind x Hx). by apply dec_stable in Hfind.
  - intros Heq. injection Heq as <-. split; [done|]. left. lia.
Qed.

Lemma add_knowledge_init fuel h w cell count :
  count ≠ 0 →
  add_knowledge fuel cell count (init h w)
  = Some (mark_known_mines
            (mk h w {[cell]} ∅ ∅
               [Sentence.of_list (neighbours cell.1 cell.2) count])).
Proof.
  intros Hc. rewrite add_knowledge_nonzero by done.
  unfold observed_knowledge. cbn [init knowledge fmap list_fmap app].
  rewrite closure_loop_skip. cbn. repeat f_equal. set_solver.
Qed.

End claims.

(** Reduce the projections of an engine state written out as a record. *)
Ltac engine_fields :=
  unfold MinesweeperAI.mark_known_mines;
  cbn [MinesweeperAI.moves_made MinesweeperAI.safes MinesweeperAI.mines
       MinesweeperAI.knowledge MinesweeperAI.height MinesweeperAI.width
       MinesweeperAI.set_mines MinesweeperAI.set_safes
       MinesweeperAI.set_knowledge MinesweeperAI.set_moves_made
       MinesweeperAI.init MinesweeperAI.mark_safe MinesweeperAI.mark_mine].

(** * C1 *)

(** C1: [add_knowledge] records the observed cell in [moves_made] but does
    not add it to [safes]: line 194 calls [Sentence.mark_safe] on the
    sentences, not [self.mark_safe].  On a new engine, after
    [add_knowledge(cell, count)] with a count other than zero, the cell is
    in [moves_made] and [safes] is still empty, so the cell is not in
    [safes]. *)
Theorem add_knowledge_cell_not_in_safes fuel h w (cell : Cell) count :
  count ≠ 0 →
  ∃ a', MinesweeperAI.add_knowledge fuel cell count (MinesweeperAI.init h w)
        = Some a'
        ∧ cell ∈ MinesweeperAI.moves_made a'
        ∧ MinesweeperAI.safes a' = ∅
        ∧ (cell ∉ MinesweeperAI.safes a').
Proof.
  intros Hc. eexists. split; [by apply add_knowledge_init|].
  engine_fields. split_and!.
  - apply elem_of_singleton. reflexivity.
  - reflexivity.
  - apply not_elem_of_empty.
Qed.

Lemma add_knowledge_cell_not_in_safes_witness :
  ∃ a', MinesweeperAI.add_knowledge 0 (0, 0) 1 (MinesweeperAI.init 8 8)
        = Some a'
        ∧ (0, 0) ∈ MinesweeperAI.moves_made a'
        ∧ MinesweeperAI.safes a' = ∅
        ∧ ((0, 0) ∉ MinesweeperAI.safes a').
Proof. apply (add_knowledge_cell_not_in_safes 0 8 8 (0, 0) 1). lia. Defined.

(** * C2 *)

(** C2: [make_safe_move] looks for a move only when [safes] has more than
    one element (line 269).  With exactly one safe cell, not yet played,
    it returns [None] and leaves the state as it is, whatever the order in
    which the set is enumerated. *)
Theorem make_safe_move_single_safe_cell to_list h w (c : Cell) :
  let a := MinesweeperAI.mark_safe c (MinesweeperAI.init h w) in
  c ∈ MinesweeperAI.safes a
  ∧ (c ∉ MinesweeperAI.moves_made a)
  ∧ MinesweeperAI.make_safe_move to_list a = (None, a).
Proof.
  intros a.
  assert (MinesweeperAI.safes a = {[c]}) as Hsafes.
  { apply (left_id_L (∅ : gset Cell) (∪)). }
  split_and!.
  - rewrite Hsafes. by apply elem_of_singleton.
  - apply not_elem_of_empty.
  - unfold MinesweeperAI.make_safe_move. rewrite Hsafes.
    rewrite (size_singleton (C:=gset Cell)). by rewrite decide_False by lia.
Qed.

(** * C3 *)

(** What [add_knowledge(cell, 0)] does add: the neighbours whose row and
    column are between 0 and 7. *)
Lemma add_knowledge_zero_safes fuel (cell : Cell) a a' c :
  MinesweeperAI.add_knowledge fuel cell 0 a = Some a' →
  c ∈ MinesweeperAI.safes a'
  ↔ c ∈ MinesweeperAI.safes a
    ∨ (c ∈ MinesweeperAI.neighbours cell.1 cell.2 ∧ in_fixed_bounds c).
Proof.
  rewrite add_knowledge_zero. intros Heq. injection Heq as <-.
  apply elem_of_add_safe_neighbours.
Qed.

(** C3: the bounds of line 245 are the constants 0 and 7, not the height
    and width of the engine.  On a 10 x 10 board, after
    [add_knowledge((8, 8), 0)] the neighbour (9, 9), which is on the
    board, is not in [safes]. *)
Theorem add_knowledge_zero_large_board fuel :
  ∃ a', MinesweeperAI.add_knowledge fuel (8, 8) 0 (MinesweeperAI.init 10 10)
        = Some a'
        ∧ (9, 9) ∈ MinesweeperAI.neighbours 8 8
        ∧ (0 ≤ 9 < MinesweeperAI.height a' ∧ 0 ≤ 9 < MinesweeperAI.width a')
        ∧ ((9, 9) ∉ MinesweeperAI.safes a').
Proof.
  destruct (MinesweeperAI.add_knowledge fuel (8, 8) 0
              (MinesweeperAI.init 10 10)) as [a'|] eqn:Hadd;
    [|by rewrite add_knowledge_zero in Hadd].
  exists a'. split; [done|].
  split; [unfold MinesweeperAI.neighbours; set_solver|]. split.
  - rewrite add_knowledge_zero in Hadd. injection Hadd as <-.
    engine_fields. lia.
  - intros Hin. apply (add_knowledge_zero_safes _ _ _ _ _ Hadd) in Hin.
    destruct Hin as [Hin|[_ [Hrow _]]].
    + by apply not_elem_of_empty in Hin.
    + cbn [fst] in Hrow. lia.
Qed.

(** * C4 *)

(** C4: the sentence that line 198 appends holds all eight neighbours,
    with no test against the board: for the corner cell (0, 0) of an
    8 x 8 board it has eight cells, among them (-1, -1). *)
Theorem add_knowledge_corner_sentence fuel :
  ∃ a' s, MinesweeperAI.add_knowledge fuel (0, 0) 1 (MinesweeperAI.init 8 8)
          = Some a'
          ∧ MinesweeperAI.knowledge a' = [s]
          ∧ Sentence.count s = 1
          ∧ Sentence.cells s = list_to_set (MinesweeperAI.neighbours 0 0)
          ∧ size (Sentence.cells s) = 8%nat
          ∧ (-1, -1) ∈ Sentence.cells s.
Proof.
  eexists. eexists. split; [by apply add_knowledge_init|].
  engine_fields. cbn [fst snd Sentence.of_list Sentence.cells Sentence.count].
  split_and!; [reflexivity|reflexivity|reflexivity|by vm_compute|].
  unfold MinesweeperAI.neighbours. set_solver.
Qed.

(** * C5 *)

(** C5: the loop body at a pair of entries [A], [B] of the knowledge list
    with the cells of [A] among those of [B], visited in either order:
    the derived sentence has the cells of [B] that are not in [A] and the
    absolute difference of the counts, and it is appended (and [change]
    set) exactly when no entry of the list equals it.  A pass visits
    every such pair, so the derived sentence is in the list after it. *)
Theorem pair_step_subset kn change x y (A B : Sentence.t) :
  kn !! x = Some A → kn !! y = Some B →
  Sentence.cells A ⊆ Sentence.cells B →
  let d := Sentence.mk (Sentence.cells B ∖ Sentence.cells A)
             (Z.abs (Sentence.count B - Sentence.count A)) in
  MinesweeperAI.derive A B = d
  ∧ MinesweeperAI.derive B A = d
  ∧ MinesweeperAI.pair_step x y (kn, change)
    = (if decide (d ∈ kn) then (kn, change) else (kn ++ [d], true))
  ∧ MinesweeperAI.pair_step y x (kn, change)
    = (if decide (d ∈ kn) then (kn, change) else (kn ++ [d], true))
  ∧ d ∈ (MinesweeperAI.derive_pass kn).1.
Proof.
  intros Hx Hy Hsub d.
  assert (MinesweeperAI.derive A B = d) as HAB.
  { unfold MinesweeperAI.derive, d.
    by rewrite symmetric_difference_subseteq by done. }
  assert (MinesweeperAI.derive B A = d) as HBA.
  { unfold MinesweeperAI.derive, d.
    rewrite symmetric_difference_comm.
    rewrite symmetric_difference_subseteq by done. f_equal. lia. }
  split_and!; [done|done| | |].
  - unfold MinesweeperAI.pair_step. cbn [fst]. rewrite Hx, Hy, HAB.
    rewrite decide_True by (by right).
    destruct (decide (d ∈ kn)) as [Hd|Hd].
    + rewrite decide_False; [done|]. by rewrite list_count_0; intros ?.
    + rewrite decide_True; [done|]. by apply list_count_0.
  - unfold MinesweeperAI.pair_step. cbn [fst]. rewrite Hx, Hy, HBA.
    rewrite decide_True by (by left).
    destruct (decide (d ∈ kn)) as [Hd|Hd].
    + rewrite decide_False; [done|]. by rewrite list_count_0; intros ?.
    + rewrite decide_True; [done|]. by apply list_count_0.
  - rewrite <- HAB. eapply derive_pass_derived; [done|done|by right].
Qed.

Lemma pair_step_subset_witness :
  [example_A; example_B] !! 0%nat = Some example_A
  ∧ [example_A; example_B] !! 1%nat = Some example_B
  ∧ Sentence.cells example_A ⊆ Sentence.cells example_B
  ∧ MinesweeperAI.pair_step 0 1 ([example_A; example_B], false)
    = ([example_A; example_B; Sentence.mk {[(0, 1)]} 0], true).
Proof.
  assert (Sentence.cells example_A ⊆ Sentence.cells example_B) as Hsub
    by (apply (bool_decide_unpack _); by vm_compute).
  split_and!; [reflexivity|reflexivity|exact Hsub|].
  destruct (pair_step_subset [example_A; example_B] false 0 1
              example_A example_B eq_refl eq_refl Hsub) as (_ & _ & H & _ & _).
  rewrite H. by vm_compute.
Defined.

(** * C6 *)

(** C6: [add_knowledge] does not bring the knowledge base to a fixed
    point.  On an 8 x 8 board with one mine at (3, 3), after the reports
    for (2, 2) (one mine), (1, 1), (1, 2) and (2, 1) (none), the one
    sentence still holds four cells that are in [safes]: the branch for
    count 0 runs neither the loop nor the cleanup, and the first call
    skipped them because the sentence was alone (line 200).  Without those
    cells the sentence would say that (3, 3) is a mine; [mines] is
    empty. *)
Theorem add_knowledge_leaves_safe_cells :
  observed center_board unresolved_state
  ∧ MinesweeperAI.knowledge unresolved_state
    = [Sentence.mk {[(1, 3); (2, 3); (3, 1); (3, 2); (3, 3)]} 1]
  ∧ {[(1, 3); (2, 3); (3, 1); (3, 2)]} ⊆ MinesweeperAI.safes unresolved_state
  ∧ MinesweeperAI.mines unresolved_state = ∅
  ∧ ¬ free_of (MinesweeperAI.safes unresolved_state)
        (MinesweeperAI.mines unresolved_state)
        (MinesweeperAI.knowledge unresolved_state).
Proof.
  assert (MinesweeperAI.knowledge unresolved_state
          = [Sentence.mk {[(1, 3); (2, 3); (3, 1); (3, 2); (3, 3)]} 1])
    as Hkn by by vm_compute.
  assert ((1, 3) ∈ MinesweeperAI.safes unresolved_state) as Hsafe
    by (apply (bool_decide_unpack _); by vm_compute).
  split_and!.
  - unfold unresolved_state.
    set (a0 := MinesweeperAI.init 8 8).
    set (a1 := observe center_board 0 (2, 2) a0).
    set (a2 := observe center_board 0 (1, 1) a1).
    set (a3 := observe center_board 0 (1, 2) a2).
    apply (observed_step _ a3 (2, 1) 0 0); [|by vm_compute|by vm_compute].
    apply (observed_step _ a2 (1, 2) 0 0); [|by vm_compute|by vm_compute].
    apply (observed_step _ a1 (1, 1) 0 0); [|by vm_compute|by vm_compute].
    apply (observed_step _ a0 (2, 2) 1 0); [|by vm_compute|by vm_compute].
    apply observed_init.
  - exact Hkn.
  - apply (bool_decide_unpack _). by vm_compute.
  - by vm_compute.
  - rewrite Hkn. intros Hfree. apply Forall_inv in Hfree as [Hfree _].
    apply (Hfree (1, 3)); [|exact Hsafe].
    cbn [Sentence.cells]. set_solver.
Qed.

(** What the loop leaves when it does run: with a count other than zero
    and on an engine that already held a sentence, no sentence of the
    knowledge base mentions a cell of [safes] or a cell that was in
    [mines] when the call began, and the knowledge base is the cleanup
    (lines 215-229) of a list in which every pair of entries with one
    cell set inside the other had its derived sentence. *)
Theorem add_knowledge_closure fuel (cell : Cell) count a a' :
  count ≠ 0 → MinesweeperAI.knowledge a ≠ [] →
  MinesweeperAI.add_knowledge fuel cell count a = Some a' →
  free_of (MinesweeperAI.safes a') (MinesweeperAI.mines a)
    (MinesweeperAI.knowledge a')
  ∧ ∃ pre, derivation_closed pre
           ∧ MinesweeperAI.knowledge a'
             = MinesweeperAI.cleanup (MinesweeperAI.safes a')
                 (MinesweeperAI.mines a) pre.
Proof.
  intros Hc Hkn. rewrite add_knowledge_nonzero by done.
  destruct (MinesweeperAI.closure_loop _ _ _ _ _) as [kn'|] eqn:Hloop;
    [|done].
  intros Heq. injection Heq as <-. engine_fields.
  apply closure_loop_result in Hloop as (pre & Hclosed & ->).
  - split; [|by exists pre].
    unfold free_of. rewrite cleanup_fmap. apply Forall_fmap, Forall_forall.
    intros s _. apply cleanup_one_disjoint.
  - unfold observed_knowledge. rewrite length_app, length_fmap. simpl.
    destruct (MinesweeperAI.knowledge a); [done|simpl; lia].
Qed.

Lemma add_knowledge_closure_witness :
  1 ≠ 0
  ∧ MinesweeperAI.knowledge example_state2 ≠ []
  ∧ MinesweeperAI.add_knowledge 5 (2, 1) 1 example_state2
    = Some example_state3
  ∧ free_of (MinesweeperAI.safes example_state3)
      (MinesweeperAI.mines example_state2)
      (MinesweeperAI.knowledge example_state3)
  ∧ ∃ pre, derivation_closed pre
           ∧ MinesweeperAI.knowledge example_state3
             = MinesweeperAI.cleanup (MinesweeperAI.safes example_state3)
                 (MinesweeperAI.mines example_state2) pre.
Proof.
  assert (1 ≠ 0) as H1 by lia.
  assert (MinesweeperAI.knowledge example_state2 ≠ []) as H2 by by vm_compute.
  assert (MinesweeperAI.add_knowledge 5 (2, 1) 1 example_state2
          = Some example_state3) as H3 by by vm_compute.
  split_and!; [exact H1|exact H2|exact H3| |];
    apply (add_knowledge_closure 5 (2, 1) 1 example_state2 example_state3
             H1 H2 H3).
Defined.

(** * C7 *)

(** C7 as stated fails: after [add_knowledge((1, 1), 1)] on a new engine
    and [mark_mine] on two of the neighbours, the sentence has count
    -1. *)
Lemma contradictory_marks_count_negative :
  run elements (MinesweeperAI.init 8 8) contradictory_ops contradictory_final
  ∧ ¬ Forall count_in_range (MinesweeperAI.knowledge contradictory_final).
Proof.
  split.
  - apply (run_ops_run elements 0). by vm_compute.
  - intros H. apply Forall_inv in H. destruct H as [H _].
    vm_compute in H. by apply H.
Qed.

(** C7, amended: after any sequence of calls that agree with one mine
    layout ([add_knowledge] for a cell without a mine and the number of
    mines among its eight neighbours, [mark_mine] on a cell with a mine,
    [mark_safe] on a cell without one, [make_safe_move]), every sentence
    of the knowledge base has [0 <= count <= len(cells)]. *)
Theorem consistent_run_count_in_range (M : Cell → bool) to_list h w ops a :
  Forall (agrees M) ops →
  run to_list (MinesweeperAI.init h w) ops a →
  Forall count_in_range (MinesweeperAI.knowledge a).
Proof.
  intros Hops Hrun.
  destruct (run_consistent M to_list _ _ _ Hops (init_consistent M h w) Hrun)
    as (Hkn & _ & _).
  eapply Forall_impl; [exact Hkn|]. intros s. apply sound_count_bounds.
Qed.

Lemma example_ops_agree : Forall (agrees (mine_at example_board)) example_ops.
Proof.
  repeat constructor; by vm_compute.
Defined.

Lemma consistent_run_count_in_range_witness :
  Forall (agrees (mine_at example_board)) example_ops
  ∧ run elements (MinesweeperAI.init 5 5) example_ops example_final
  ∧ Forall count_in_range (MinesweeperAI.knowledge example_final).
Proof.
  assert (run elements (MinesweeperAI.init 5 5) example_ops example_final)
    as Hrun by (apply (run_ops_run elements 5); by vm_compute).
  split_and!; [exact example_ops_agree|exact Hrun|].
  exact (consistent_run_count_in_range (mine_at example_board) elements 5 5
           example_ops example_final example_ops_agree Hrun).
Defined.

(** * C8 *)

(** C8: starting from a new engine, after any sequence of [add_knowledge]
    calls that pass what one board reports (a cell of the board without a
    mine, with its [nearby_mines]), [safes] and [mines] have no cell in
    common. *)
Theorem observed_safes_mines_disjoint (g : Minesweeper.t) a :
  observed g a → MinesweeperAI.safes a ## MinesweeperAI.mines a.
Proof.
  intros Ha. eapply consistent_disjoint. by apply observed_consistent.
Qed.

Lemma example_state3_observed : observed example_board example_state3.
Proof.
  eapply (observed_step _ example_state2 (2, 1) 1 5);
    [|by vm_compute|by vm_compute].
  eapply (observed_step _ example_state1 (1, 1) 1 5);
    [|by vm_compute|by vm_compute].
  eapply (observed_step _ example_state0 (0, 0) 0 5);
    [|by vm_compute|by vm_compute].
  apply observed_init.
Defined.

Lemma observed_safes_mines_disjoint_witness :
  observed example_board example_state3
  ∧ MinesweeperAI.safes example_state3 ## MinesweeperAI.mines example_state3.
Proof.
  split; [exact example_state3_observed|].
  exact (observed_safes_mines_disjoint example_board example_state3
           example_state3_observed).
Defined.

(** * C9 *)

(** C9 as stated fails.  On an 8 x 8 board with mines on the eight
    neighbours of (1, 1), the reports for (1, 4), (1, 5) (no mine around)
    and (1, 1) (eight) lead to a state with the neighbours of (1, 1) in
    [mines].  In that state [add_knowledge((1, 3), 1)], for a cell of the
    board without a mine but with a count that the board does not report
    (three of its neighbours are mines), never returns: the cleanup of
    the first pass leaves the new sentence without cells and with count
    -2, and every later pass derives a sentence of greater count. *)
Lemma wrong_count_never_returns :
  observed ring_board ring_state
  ∧ Minesweeper.in_bounds ring_board 1 3 = true
  ∧ Minesweeper.is_mine ring_board (1, 3) = false
  ∧ Minesweeper.nearby_mines ring_board (1, 3) = 3
  ∧ ∀ fuel, MinesweeperAI.add_knowledge fuel (1, 3) 1 ring_state = None.
Proof.
  split_and!; [|by vm_compute|by vm_compute|by vm_compute|].
  - unfold ring_state.
    set (a0 := MinesweeperAI.init 8 8).
    set (a1 := observe ring_board 0 (1, 4) a0).
    set (a2 := observe ring_board 0 (1, 5) a1).
    apply (observed_step _ a2 (1, 1) 8 0); [|by vm_compute|by vm_compute].
    apply (observed_step _ a1 (1, 5) 0 0); [|by vm_compute|by vm_compute].
    apply (observed_step _ a0 (1, 4) 0 0); [|by vm_compute|by vm_compute].
    apply observed_init.
  - intros fuel. rewrite add_knowledge_nonzero by done.
    destruct fuel as [|fuel]; [by vm_compute|].
    rewrite closure_loop_unfold by by vm_compute.
    rewrite (closure_loop_diverges fuel _ _ _ (Sentence.mk ∅ (-2)));
      [done|..].
    + apply (bool_decide_unpack _). by vm_compute.
    + done.
    + done.
    + by vm_compute.
Qed.

(** C9, amended: in every engine state reached from a new engine by
    observations that one board reports (each a cell of the board without
    a mine, with its [nearby_mines]), the [while] loop of [add_knowledge]
    ends when the next call passes such an observation too: with enough
    fuel the call returns. *)
Theorem observed_add_knowledge_terminates (g : Minesweeper.t) a
    (cell : Cell) count :
  observed g a → reported g cell count →
  ∃ fuel, is_Some (MinesweeperAI.add_knowledge fuel cell count a).
Proof.
  intros Ha Hrep.
  apply (add_knowledge_terminates (mine_at g)).
  - by apply reported_observation.
  - by apply observed_consistent.
Qed.

Lemma observed_add_knowledge_terminates_witness :
  observed example_board example_state3
  ∧ reported example_board (1, 2) 1
  ∧ ∃ fuel, is_Some (MinesweeperAI.add_knowledge fuel (1, 2) 1 example_state3).
Proof.
  assert (reported example_board (1, 2) 1) as Hrep by by vm_compute.
  split_and!; [exact example_state3_observed|exact Hrep|].
  exact (observed_add_knowledge_terminates example_board example_state3
           (1, 2) 1 example_state3_observed Hrep).
Defined.

(** The same with a second, different count for one cell: told first that
    (1, 1) has eight mines around it and then that it has one, the engine
    marks the eight neighbours as mines, the cleanup of the first pass
    leaves a sentence without cells and with count -7, and the loop never
    ends. *)
Lemma contradictory_counts_diverge fuel :
  MinesweeperAI.add_knowledge 0 (1, 1) 8 (MinesweeperAI.init 8 8)
  = Some surrounded_state
  ∧ MinesweeperAI.add_knowledge fuel (1, 1) 1 surrounded_state = None.
Proof.
  split; [by vm_compute|].
  rewrite add_knowledge_nonzero by done.
  destruct fuel as [|fuel]; [by vm_compute|].
  rewrite closure_loop_unfold by by vm_compute.
  rewrite (closure_loop_diverges fuel _ _ _ (Sentence.mk ∅ (-7))); [done|..].
  - apply (bool_decide_unpack _). by vm_compute.
  - done.
  - done.
  - by vm_compute.
Qed.

(** * C10 *)

(** C10: over any sequence of calls of [add_knowledge], [mark_mine],
    [mark_safe] and [make_safe_move] that return, each of [safes],
    [mines] and [moves_made] at the end contains its value at the
    start. *)
Theorem run_sets_grow to_list a ops a' :
  run to_list a ops a' →
  MinesweeperAI.safes a ⊆ MinesweeperAI.safes a'
  ∧ MinesweeperAI.mines a ⊆ MinesweeperAI.mines a'
  ∧ MinesweeperAI.moves_made a ⊆ MinesweeperAI.moves_made a'.
Proof.
  induction 1 as [a|a o a1 ops a2 fuel Ho _ IH].
  - done.
  - apply run_op_sets_grow in Ho.
    exact (sets_grow_trans _ _ _ Ho IH).
Qed.

Lemma run_sets_grow_witness :
  run elements example_state0 example_ops example_final
  ∧ MinesweeperAI.safes example_state0 ⊆ MinesweeperAI.safes example_final
  ∧ MinesweeperAI.mines example_state0 ⊆ MinesweeperAI.mines example_final
  ∧ MinesweeperAI.moves_made example_state0
    ⊆ MinesweeperAI.moves_made example_final.
Proof.
  assert (run elements example_state0 example_ops example_final) as Hrun
    by (apply (run_ops_run elements 5); by vm_compute).
  split; [exact Hrun|]. exact (run_sets_grow _ _ _ _ Hrun).
Defined.

(** * Further properties of the code *)

(** ** class Sentence *)

(** X1: for a sentence that is true of the layout, [known_mines] returns
    only cells that hold a mine and [known_safes] only cells that hold
    none; each returns the whole cell set or nothing. *)
Theorem known_cells_sound (M : Cell → bool) (s : Sentence.t) :
  sound M s →
  (∀ X, Sentence.known_mines s = Some X →
        X = Sentence.cells s ∧ ∀ c, c ∈ X → M c = true)
  ∧ (∀ X, Sentence.known_safes s = Some X →
          X = Sentence.cells s ∧ ∀ c, c ∈ X → M c = false).
Proof.
  intros Hs. unfold Sentence.known_mines, Sentence.known_safes. split.
  - intros X. destruct (decide _) as [Hdet|]; [|done].
    intros [= <-]. split; [done|]. intros c Hc.
    eapply mine_count_full; [|exact Hc]. unfold sound in Hs. congruence.
  - intros X. destruct (decide _) as [Hz|]; [|done].
    intros [= <-]. split; [done|]. intros c Hc.
    eapply mine_count_zero; [|exact Hc]. unfold sound in Hs. congruence.
Qed.

Lemma known_cells_sound_witness :
  sound (mine_at example_board) example_mine_sentence
  ∧ Sentence.known_mines example_mine_sentence = Some {[(2, 2)]}
  ∧ mine_at example_board (2, 2) = true.
Proof.
  assert (sound (mine_at example_board) example_mine_sentence) as Hs
    by by vm_compute.
  split_and!; [exact Hs|by vm_compute|].
  destruct (known_cells_sound _ _ Hs) as [Hm _].
  destruct (Hm {[(2, 2)]}) as [_ Hc]; [by vm_compute|].
  apply Hc. by apply elem_of_singleton.
Defined.

(** X2: [Sentence.mark_mine] and [Sentence.mark_safe] leave the sentence
    without the cell, never add a cell, change nothing when the cell is
    not in the sentence, and a second call with the same cell changes
    nothing more.  [mark_mine] lowers the count by one exactly when the
    cell was in the sentence; [mark_safe] never changes it. *)
Theorem sentence_mark_effect (cell : Cell) (s : Sentence.t) :
  Sentence.cells (Sentence.mark_mine cell s) = Sentence.cells s ∖ {[cell]}
  ∧ Sentence.cells (Sentence.mark_safe cell s) = Sentence.cells s ∖ {[cell]}
  ∧ Sentence.count (Sentence.mark_mine cell s)
    = (if decide (cell ∈ Sentence.cells s) then Sentence.count s - 1
       else Sentence.count s)
  ∧ Sentence.count (Sentence.mark_safe cell s) = Sentence.count s
  ∧ (cell ∉ Sentence.cells s →
     Sentence.mark_mine cell s = s ∧ Sentence.mark_safe cell s = s)
  ∧ Sentence.mark_mine cell (Sentence.mark_mine cell s)
    = Sentence.mark_mine cell s
  ∧ Sentence.mark_safe cell (Sentence.mark_safe cell s)
    = Sentence.mark_safe cell s.
Proof.
  unfold Sentence.mark_mine, Sentence.mark_safe.
  destruct (decide (cell ∈ Sentence.cells s)) as [Hin|Hin];
    cbn [Sentence.cells Sentence.count].
  - rewrite !decide_False by set_solver. split_and!; try done.
  - rewrite !decide_False by done. split_and!; try done; set_solver.
Qed.

Lemma sentence_mark_mine_safe_comm (c1 c2 : Cell) (s : Sentence.t) :
  c1 ≠ c2 →
  Sentence.mark_mine c1 (Sentence.mark_safe c2 s)
  = Sentence.mark_safe c2 (Sentence.mark_mine c1 s).
Proof.
  intros Hne. unfold Sentence.mark_mine, Sentence.mark_safe.
  destruct (decide (c1 ∈ Sentence.cells s)) as [H1|H1];
    destruct (decide (c2 ∈ Sentence.cells s)) as [H2|H2];
    cbn [Sentence.cells Sentence.count];
    repeat (destruct (decide _) as [?|?];
            cbn [Sentence.cells Sentence.count]);
    try done; try set_solver;
    f_equal; solve [set_solver|lia].
Qed.

Lemma sentence_mark_removes (cell : Cell) (s : Sentence.t) :
  (cell ∉ Sentence.cells (Sentence.mark_mine cell s))
  ∧ (cell ∉ Sentence.cells (Sentence.mark_safe cell s))
  ∧ Sentence.count (Sentence.mark_safe cell s) = Sentence.count s.
Proof.
  unfold Sentence.mark_mine, Sentence.mark_safe.
  destruct (decide _); cbn [Sentence.cells Sentence.count];
    split_and!; try done; set_solver.
Qed.

(** X3: marking two different cells of a sentence, as mines or as safe, in
    either order gives the same sentence; two [mark_mine] or two
    [mark_safe] calls commute for any two cells. *)
Theorem sentence_marks_commute (c1 c2 : Cell) (s : Sentence.t) :
  Sentence.mark_mine c1 (Sentence.mark_mine c2 s)
  = Sentence.mark_mine c2 (Sentence.mark_mine c1 s)
  ∧ Sentence.mark_safe c1 (Sentence.mark_safe c2 s)
    = Sentence.mark_safe c2 (Sentence.mark_safe c1 s)
  ∧ (c1 ≠ c2 →
     Sentence.mark_mine c1 (Sentence.mark_safe c2 s)
     = Sentence.mark_safe c2 (Sentence.mark_mine c1 s))
  ∧ (c1 ∈ Sentence.cells s →
     Sentence.mark_mine c1 (Sentence.mark_safe c1 s)
     ≠ Sentence.mark_safe c1 (Sentence.mark_mine c1 s)).
Proof.
  unfold Sentence.mark_mine, Sentence.mark_safe.
  destruct (decide (c1 ∈ Sentence.cells s)) as [H1|H1];
    destruct (decide (c2 ∈ Sentence.cells s)) as [H2|H2];
    cbn [Sentence.cells Sentence.count];
    (split_and!; [| |intros Hne|intros Hin]);
    repeat (destruct (decide _) as [?|?];
            cbn [Sentence.cells Sentence.count]);
    try done; try set_solver;
    try (intros Heq; apply (f_equal Sentence.count) in Heq;
         cbn [Sentence.count] in Heq; lia);
    f_equal; solve [set_solver|lia].
Qed.

(** X4: marking keeps a true sentence true when the mark is right
    ([mark_mine] for a cell with a mine, [mark_safe] for a cell without),
    and makes it false when the mark is wrong and the cell is in the
    sentence. *)
Theorem sentence_mark_sound (M : Cell → bool) (cell : Cell)
    (s : Sentence.t) :
  sound M s →
  (M cell = true → sound M (Sentence.mark_mine cell s))
  ∧ (M cell = false → sound M (Sentence.mark_safe cell s))
  ∧ (M cell = false → cell ∈ Sentence.cells s →
     ¬ sound M (Sentence.mark_mine cell s))
  ∧ (M cell = true → cell ∈ Sentence.cells s →
     ¬ sound M (Sentence.mark_safe cell s)).
Proof.
  intros Hs. split_and!.
  - intros Hm. by apply sound_mark_mine.
  - intros Hm. by apply sound_mark_safe.
  - intros Hm Hin. unfold sound, Sentence.mark_mine in *.
    rewrite decide_True by done. cbn [Sentence.cells Sentence.count].
    rewrite mine_count_difference, mine_count_singleton_inter, Hm by done.
    lia.
  - intros Hm Hin. unfold sound, Sentence.mark_safe in *.
    rewrite decide_True by done. cbn [Sentence.cells Sentence.count].
    rewrite mine_count_difference, mine_count_singleton_inter, Hm by done.
    lia.
Qed.

Lemma sentence_mark_sound_witness :
  sound (mine_at example_board) example_pair_sentence
  ∧ sound (mine_at example_board)
      (Sentence.mark_mine (2, 2) example_pair_sentence)
  ∧ ¬ sound (mine_at example_board)
        (Sentence.mark_mine (2, 3) example_pair_sentence).
Proof.
  assert (sound (mine_at example_board) example_pair_sentence) as Hs
    by by vm_compute.
  destruct (sentence_mark_sound (mine_at example_board) (2, 2) _ Hs)
    as (H1 & _).
  destruct (sentence_mark_sound (mine_at example_board) (2, 3) _ Hs)
    as (_ & _ & H3 & _).
  split_and!; [exact Hs|by apply H1|].
  apply H3; [by vm_compute|]. apply (bool_decide_unpack _). by vm_compute.
Defined.

(** ** class MinesweeperAI: [mark_mine], [mark_safe] *)

(** X5: after [mark_mine(cell)] the cell is in [mines] and no sentence of
    the knowledge base mentions it; [safes] and [moves_made] are as
    before and the knowledge base has as many sentences as before. *)
Theorem mark_mine_effect (cell : Cell) (a : MinesweeperAI.t) :
  MinesweeperAI.mines (MinesweeperAI.mark_mine cell a)
  = MinesweeperAI.mines a ∪ {[cell]}
  ∧ Forall (λ s, cell ∉ Sentence.cells s)
      (MinesweeperAI.knowledge (MinesweeperAI.mark_mine cell a))
  ∧ MinesweeperAI.safes (MinesweeperAI.mark_mine cell a)
    = MinesweeperAI.safes a
  ∧ MinesweeperAI.moves_made (MinesweeperAI.mark_mine cell a)
    = MinesweeperAI.moves_made a
  ∧ length (MinesweeperAI.knowledge (MinesweeperAI.mark_mine cell a))
    = length (MinesweeperAI.knowledge a).
Proof.
  engine_fields. split_and!; try done.
  - apply Forall_fmap, Forall_forall. intros s _. simpl.
    apply sentence_mark_removes.
  - by rewrite length_fmap.
Qed.

(** X6: after [mark_safe(cell)] the cell is in [safes] and no sentence of
    the knowledge base mentions it; the counts of the sentences, [mines]
    and [moves_made] are as before. *)
Theorem mark_safe_effect (cell : Cell) (a : MinesweeperAI.t) :
  MinesweeperAI.safes (MinesweeperAI.mark_safe cell a)
  = MinesweeperAI.safes a ∪ {[cell]}
  ∧ Forall (λ s, cell ∉ Sentence.cells s)
      (MinesweeperAI.knowledge (MinesweeperAI.mark_safe cell a))
  ∧ Sentence.count <$> MinesweeperAI.knowledge (MinesweeperAI.mark_safe cell a)
    = Sentence.count <$> MinesweeperAI.knowledge a
  ∧ MinesweeperAI.mines (MinesweeperAI.mark_safe cell a)
    = MinesweeperAI.mines a
  ∧ MinesweeperAI.moves_made (MinesweeperAI.mark_safe cell a)
    = MinesweeperAI.moves_made a.
Proof.
  engine_fields. split_and!; try done.
  - apply Forall_fmap, Forall_forall. intros s _. simpl.
    apply sentence_mark_removes.
  - rewrite <- list_fmap_compose. apply list_fmap_ext. intros i s _. simpl.
    apply sentence_mark_removes.
Qed.

(** X7: [mark_mine] and [mark_safe] of the engine on two different cells
    give the same state in either order. *)
Theorem engine_marks_commute (c1 c2 : Cell) (a : MinesweeperAI.t) :
  c1 ≠ c2 →
  MinesweeperAI.mark_mine c1 (MinesweeperAI.mark_safe c2 a)
  = MinesweeperAI.mark_safe c2 (MinesweeperAI.mark_mine c1 a).
Proof.
  intros Hne. unfold MinesweeperAI.mark_mine, MinesweeperAI.mark_safe.
  unfold MinesweeperAI.set_knowledge, MinesweeperAI.set_mines,
    MinesweeperAI.set_safes.
  cbn [MinesweeperAI.height MinesweeperAI.width MinesweeperAI.moves_made
       MinesweeperAI.mines MinesweeperAI.safes MinesweeperAI.knowledge].
  f_equal. rewrite <- !list_fmap_compose. apply list_fmap_ext.
  intros i s _. simpl.
  by apply sentence_mark_mine_safe_comm.
Qed.

Lemma engine_marks_commute_witness :
  (2, 2) ≠ (0, 2)
  ∧ MinesweeperAI.mark_mine (2, 2) (MinesweeperAI.mark_safe (0, 2) example_state3)
    = MinesweeperAI.mark_safe (0, 2) (MinesweeperAI.mark_mine (2, 2) example_state3).
Proof.
  assert ((2, 2) ≠ ((0, 2) : Cell)) as Hne by (intros [=]).
  split; [exact Hne|]. exact (engine_marks_commute _ _ example_state3 Hne).
Defined.

(** ** [make_safe_move] *)

(** X8: when [make_safe_move] returns a cell, the cell is in [safes], was
    not in [moves_made] and is now in it; [safes], [mines] and the
    knowledge base are untouched.  ([to_list] stands for [list(self.safes)]
    and lists only elements of the set.) *)
Theorem make_safe_move_returns_safe_cell to_list (a a' : MinesweeperAI.t)
    (c : Cell) :
  (∀ (X : gset Cell) x, x ∈ to_list X → x ∈ X) →
  MinesweeperAI.make_safe_move to_list a = (Some c, a') →
  c ∈ MinesweeperAI.safes a
  ∧ (c ∉ MinesweeperAI.moves_made a)
  ∧ MinesweeperAI.moves_made a' = MinesweeperAI.moves_made a ∪ {[c]}
  ∧ MinesweeperAI.safes a' = MinesweeperAI.safes a
  ∧ MinesweeperAI.mines a' = MinesweeperAI.mines a
  ∧ MinesweeperAI.knowledge a' = MinesweeperAI.knowledge a.
Proof.
  intros Hlist Hmove. by apply (make_safe_move_some to_list).
Qed.

Lemma elements_sound (X : gset Cell) x : x ∈ elements X → x ∈ X.
Proof. by rewrite elem_of_elements. Qed.

Lemma elements_complete (X : gset Cell) x : x ∈ X → x ∈ elements X.
Proof. by rewrite elem_of_elements. Qed.

Lemma make_safe_move_returns_safe_cell_witness :
  (∀ (X : gset Cell) x, x ∈ elements X → x ∈ X)
  ∧ ∃ c a', MinesweeperAI.make_safe_move elements example_state2
            = (Some c, a')
            ∧ c ∈ MinesweeperAI.safes example_state2
            ∧ MinesweeperAI.moves_made a'
              = MinesweeperAI.moves_made example_state2 ∪ {[c]}.
Proof.
  split; [exact elements_sound|].
  destruct (MinesweeperAI.make_safe_move elements example_state2)
    as [[c|] a'] eqn:Hmove; [|by vm_compute in Hmove].
  exists c, a'. split; [done|].
  destruct (make_safe_move_returns_safe_cell elements example_state2 a' c
              elements_sound Hmove) as (H1 & _ & H3 & _).
  by split.
Defined.

(** X9: [make_safe_move] returns a cell as soon as [safes] has at least two
    cells and one of them is not in [moves_made]; it returns [None], and
    leaves the state as it is, exactly when [safes] has at most one cell
    or all of [safes] is in [moves_made].  ([to_list] lists exactly the
    elements of the set.) *)
Theorem make_safe_move_none_iff to_list (a : MinesweeperAI.t) :
  (∀ (X : gset Cell) x, x ∈ to_list X ↔ x ∈ X) →
  (MinesweeperAI.make_safe_move to_list a).1 = None
  ↔ ((size (MinesweeperAI.safes a) ≤ 1)%nat
     ∨ MinesweeperAI.safes a ⊆ MinesweeperAI.moves_made a).
Proof.
  intros Hlist. split.
  - destruct (MinesweeperAI.make_safe_move to_list a) as [o a'] eqn:Hmove.
    simpl. intros ->.
    apply (make_safe_move_none to_list) in Hmove as [_ H]; [done|].
    intros X x. apply Hlist.
  - unfold MinesweeperAI.make_safe_move. intros [Hsize|Hsub].
    + by rewrite decide_False by lia.
    + destruct (decide _); [|done].
      destruct (list_find _ _) as [[i ele]|] eqn:Hfind; [|done].
      apply list_find_Some in Hfind as (Hi & Hnot & _).
      apply list_elem_of_lookup_2, Hlist, Hsub in Hi. done.
Qed.

Lemma make_safe_move_none_iff_witness :
  (∀ (X : gset Cell) x, x ∈ elements X ↔ x ∈ X)
  ∧ ((MinesweeperAI.make_safe_move elements example_state0).1 = None
     ↔ ((size (MinesweeperAI.safes example_state0) ≤ 1)%nat
        ∨ MinesweeperAI.safes example_state0
          ⊆ MinesweeperAI.moves_made example_state0)).
Proof.
  assert (∀ (X : gset Cell) x, x ∈ elements X ↔ x ∈ X) as Hlist
    by (intros; apply elem_of_elements).
  split; [exact Hlist|].
  exact (make_safe_move_none_iff elements example_state0 Hlist).
Defined.

(** X10: after calls that agree with a mine layout, a cell that
    [make_safe_move] returns holds no mine. *)
Theorem make_safe_move_not_a_mine (M : Cell → bool) to_list h w ops
    (a a' : MinesweeperAI.t) (c : Cell) :
  (∀ (X : gset Cell) x, x ∈ to_list X → x ∈ X) →
  Forall (agrees M) ops →
  run to_list (MinesweeperAI.init h w) ops a →
  MinesweeperAI.make_safe_move to_list a = (Some c, a') →
  M c = false.
Proof.
  intros Hlist Hops Hrun Hmove.
  destruct (run_consistent M to_list _ _ _ Hops (init_consistent M h w) Hrun)
    as (_ & Hsafes & _).
  apply Hsafes. by apply (make_safe_move_some to_list a c a').
Qed.

Lemma example_obs_ops_agree :
  Forall (agrees (mine_at example_board)) example_obs_ops.
Proof. repeat constructor; by vm_compute. Defined.

Lemma example_obs_ops_run :
  run elements (MinesweeperAI.init 5 5) example_obs_ops example_state2.
Proof. apply (run_ops_run elements 5). by vm_compute. Defined.

Lemma make_safe_move_not_a_mine_witness :
  (∀ (X : gset Cell) x, x ∈ elements X → x ∈ X)
  ∧ Forall (agrees (mine_at example_board)) example_obs_ops
  ∧ run elements (MinesweeperAI.init 5 5) example_obs_ops example_state2
  ∧ ∃ c a', MinesweeperAI.make_safe_move elements example_state2
            = (Some c, a')
            ∧ mine_at example_board c = false.
Proof.
  split_and!;
    [exact elements_sound|exact example_obs_ops_agree
    |exact example_obs_ops_run|].
  destruct (MinesweeperAI.make_safe_move elements example_state2)
    as [[c|] a'] eqn:Hmove; [|by vm_compute in Hmove].
  exists c, a'. split; [done|].
  exact (make_safe_move_not_a_mine (mine_at example_board) elements 5 5
           example_obs_ops example_state2 a' c elements_sound
           example_obs_ops_agree example_obs_ops_run Hmove).
Defined.

(** ** [add_knowledge] *)

(** During the loop a sentence stays at its index and its cells only
    shrink. *)
Lemma cleanup_lookup sf mn kn (i : nat) s :
  kn !! i = Some s →
  MinesweeperAI.cleanup sf mn kn !! i = Some (cleanup_one sf mn s).
Proof. intros Hi. by rewrite cleanup_fmap, list_lookup_fmap, Hi. Qed.

Lemma closure_loop_lookup fuel sf mn change kn kn' (i : nat) s :
  MinesweeperAI.closure_loop fuel sf mn change kn = Some kn' →
  kn !! i = Some s →
  ∃ s', kn' !! i = Some s' ∧ Sentence.cells s' ⊆ Sentence.cells s.
Proof.
  revert change kn s. induction fuel as [|fuel IH]; intros change kn s Hloop Hi.
  - simpl in Hloop. destruct (change && _); [done|].
    injection Hloop as <-. by exists s.
  - cbn [MinesweeperAI.closure_loop] in Hloop. destruct (change && _).
    + destruct (derive_pass_app kn) as (new & Hpass & _).
      rewrite Hpass in Hloop. cbn [fst snd] in Hloop.
      destruct (IH _ _ (cleanup_one sf mn s) Hloop) as (s' & Hs' & Hsub).
      { apply cleanup_lookup. by apply lookup_app_l_Some. }
      exists s'. split; [done|]. etrans; [exact Hsub|].
      rewrite cleanup_one_spec. simpl. set_solver.
    + injection Hloop as <-. by exists s.
Qed.

(** X11: when [add_knowledge(cell, count)] returns, [moves_made] has gained
    exactly the cell, the board size is as before, and every sentence the
    knowledge base held is still at its index, with a subset of its
    cells that does not contain the observed cell: sentences are never
    removed or reordered, and never gain a cell. *)
Theorem add_knowledge_keeps_sentences fuel (cell : Cell) count
    (a a' : MinesweeperAI.t) :
  MinesweeperAI.add_knowledge fuel cell count a = Some a' →
  MinesweeperAI.moves_made a' = MinesweeperAI.moves_made a ∪ {[cell]}
  ∧ MinesweeperAI.height a' = MinesweeperAI.height a
  ∧ MinesweeperAI.width a' = MinesweeperAI.width a
  ∧ (length (MinesweeperAI.knowledge a)
     ≤ length (MinesweeperAI.knowledge a'))%nat
  ∧ ∀ (i : nat) s, MinesweeperAI.knowledge a !! i = Some s →
      ∃ s', MinesweeperAI.knowledge a' !! i = Some s'
            ∧ Sentence.cells s' ⊆ Sentence.cells s ∖ {[cell]}.
Proof.
  intros Hadd.
  assert (∀ (i : nat) s, MinesweeperAI.knowledge a !! i = Some s →
      ∃ s', MinesweeperAI.knowledge a' !! i = Some s'
            ∧ Sentence.cells s' ⊆ Sentence.cells s ∖ {[cell]}) as Hkeep.
  { intros i s Hi. destruct (decide (count = 0)) as [->|Hc].
    - rewrite add_knowledge_zero in Hadd. injection Hadd as <-.
      engine_fields. exists (Sentence.mark_safe cell s).
      rewrite list_lookup_fmap, Hi. split; [done|].
      unfold Sentence.mark_safe. destruct (decide _); simpl; set_solver.
    - rewrite add_knowledge_nonzero in Hadd by done.
      destruct (MinesweeperAI.closure_loop _ _ _ _ _) as [kn|] eqn:Hloop;
        [|done].
      injection Hadd as <-. engine_fields.
      destruct (closure_loop_lookup _ _ _ _ _ _ i
                  (Sentence.mark_safe cell s) Hloop) as (s' & Hs' & Hsub).
      { unfold observed_knowledge. apply lookup_app_l_Some.
        by rewrite list_lookup_fmap, Hi. }
      exists s'. split; [done|]. etrans; [exact Hsub|].
      unfold Sentence.mark_safe. destruct (decide _); simpl; set_solver. }
  split_and!; [| | | |exact Hkeep].
  - destruct (decide (count = 0)) as [->|Hc].
    + rewrite add_knowledge_zero in Hadd. by injection Hadd as <-.
    + by apply (add_knowledge_nonzero_safes fuel cell count a a').
  - destruct (decide (count = 0)) as [->|Hc].
    + rewrite add_knowledge_zero in Hadd. by injection Hadd as <-.
    + rewrite add_knowledge_nonzero in Hadd by done.
      destruct (MinesweeperAI.closure_loop _ _ _ _ _); [|done].
      by injection Hadd as <-.
  - destruct (decide (count = 0)) as [->|Hc].
    + rewrite add_knowledge_zero in Hadd. by injection Hadd as <-.
    + rewrite add_knowledge_nonzero in Hadd by done.
      destruct (MinesweeperAI.closure_loop _ _ _ _ _); [|done].
      by injection Hadd as <-.
  - destruct (decide (length (MinesweeperAI.knowledge a)
                      ≤ length (MinesweeperAI.knowledge a'))%nat)
      as [|Hlt]; [done|].
    destruct (MinesweeperAI.knowledge a !! (length (MinesweeperAI.knowledge a')))
      as [s|] eqn:Hi.
    + destruct (Hkeep _ _ Hi) as (s' & Hs' & _).
      apply lookup_lt_Some in Hs'. lia.
    + apply lookup_ge_None in Hi. lia.
Qed.

Lemma add_knowledge_keeps_sentences_witness :
  MinesweeperAI.add_knowledge 5 (2, 1) 1 example_state2 = Some example_state3
  ∧ MinesweeperAI.moves_made example_state3
    = MinesweeperAI.moves_made example_state2 ∪ {[(2, 1)]}
  ∧ (length (MinesweeperAI.knowledge example_state2)
     ≤ length (MinesweeperAI.knowledge example_state3))%nat.
Proof.
  assert (MinesweeperAI.add_knowledge 5 (2, 1) 1 example_state2
          = Some example_state3) as Hadd by by vm_compute.
  destruct (add_knowledge_keeps_sentences _ _ _ _ _ Hadd)
    as (H1 & _ & _ & H4 & _).
  by split_and!.
Defined.

(** X12: [add_knowledge(cell, 0)] always returns, without running the
    loop.  It adds to [safes] exactly the neighbours of the cell whose
    row and column are between 0 and 7 (the observed cell is not added),
    appends no sentence, and only strikes the observed cell from the
    sentences: cells that have just become safe stay in them. *)
Theorem add_knowledge_zero_effect fuel (cell : Cell) (a : MinesweeperAI.t) :
  ∃ a', MinesweeperAI.add_knowledge fuel cell 0 a = Some a'
        ∧ (∀ c, c ∈ MinesweeperAI.safes a'
                ↔ c ∈ MinesweeperAI.safes a
                  ∨ (c ∈ MinesweeperAI.neighbours cell.1 cell.2
                     ∧ in_fixed_bounds c))
        ∧ MinesweeperAI.knowledge a'
          = Sentence.mark_safe cell <$> MinesweeperAI.knowledge a
        ∧ (cell ∉ MinesweeperAI.safes a → cell ∉ MinesweeperAI.safes a').
Proof.
  eexists. split; [apply add_knowledge_zero|]. engine_fields.
  split_and!.
  - intros c. apply elem_of_add_safe_neighbours.
  - done.
  - intros Hnot [Hin|[Hin _]]%elem_of_add_safe_neighbours; [done|].
    unfold MinesweeperAI.neighbours in Hin.
    repeat (apply elem_of_cons in Hin as [Hin|Hin];
            [destruct cell; simpl in Hin; injection Hin; lia|]).
    by apply not_elem_of_nil in Hin.
Qed.

(** X13: in a state reached from a new engine by observations that a
    board reports, every cell of [mines] is a cell of the board that
    holds a mine, and no cell of [safes] holds one: the engine never
    flags a cell without a mine and never declares a mine safe. *)
Theorem observed_sets_correct (g : Minesweeper.t) (a : MinesweeperAI.t) :
  observed g a →
  (∀ c, c ∈ MinesweeperAI.mines a →
        Minesweeper.in_bounds g c.1 c.2 = true
        ∧ Minesweeper.board_at g c.1 c.2 = true)
  ∧ (∀ c, c ∈ MinesweeperAI.safes a → mine_at g c = false).
Proof.
  intros Ha. apply observed_consistent in Ha as (_ & Hsafes & Hmines).
  split; [|exact Hsafes].
  intros c Hc. apply Hmines in Hc. unfold mine_at in Hc.
  by apply andb_true_iff in Hc.
Qed.

Lemma observed_sets_correct_witness :
  observed example_board example_state3
  ∧ ∀ c, c ∈ MinesweeperAI.safes example_state3 →
         mine_at example_board c = false.
Proof.
  split; [exact example_state3_observed|].
  exact (proj2 (observed_sets_correct example_board example_state3
                  example_state3_observed)).
Defined.

(** X14: in such a state every sentence of the knowledge base is true of
    the board: its count is the number of its cells that hold a mine. *)
Theorem observed_sentences_true (g : Minesweeper.t) (a : MinesweeperAI.t) :
  observed g a →
  Forall (λ s, Sentence.count s
               = Z.of_nat (size (filter (λ c, mine_at g c = true)
                                   (Sentence.cells s))))
    (MinesweeperAI.knowledge a).
Proof.
  intros Ha. apply observed_consistent in Ha as (Hkn & _ & _).
  eapply Forall_impl; [exact Hkn|]. intros s Hs. exact Hs.
Qed.

Lemma observed_sentences_true_witness :
  observed example_board example_state3
  ∧ Forall (λ s, Sentence.count s
                 = Z.of_nat (size (filter (λ c, mine_at example_board c = true)
                                     (Sentence.cells s))))
      (MinesweeperAI.knowledge example_state3).
Proof.
  split; [exact example_state3_observed|].
  exact (observed_sentences_true example_board example_state3
           example_state3_observed).
Defined.

(** ** The derivation loop *)

(** X15: from two sentences that are true of the layout, the cells of the
    first among those of the second, the loop derives a true sentence:
    the cells of the second that are not in the first, with the
    difference of the counts, which is not negative. *)
Theorem derive_sound (M : Cell → bool) (s1 s2 : Sentence.t) :
  sound M s1 → sound M s2 →
  Sentence.cells s1 ⊆ Sentence.cells s2 →
  MinesweeperAI.derive s1 s2
  = Sentence.mk (Sentence.cells s2 ∖ Sentence.cells s1)
      (Sentence.count s2 - Sentence.count s1)
  ∧ MinesweeperAI.derive s2 s1 = MinesweeperAI.derive s1 s2
  ∧ 0 ≤ Sentence.count s2 - Sentence.count s1
  ∧ sound M (MinesweeperAI.derive s1 s2).
Proof.
  intros H1 H2 Hsub.
  assert (sound M (MinesweeperAI.derive s1 s2)) as Hd
    by (apply sound_derive; [done|done|by right]).
  assert (0 ≤ Sentence.count s2 - Sentence.count s1) as Hpos.
  { unfold sound in H1, H2. rewrite H1, H2.
    rewrite <- mine_count_subseteq_difference by done.
    apply mine_count_bounds. }
  split_and!; [| |done|done].
  - unfold MinesweeperAI.derive.
    rewrite symmetric_difference_subseteq by done. f_equal. lia.
  - unfold MinesweeperAI.derive.
    rewrite symmetric_difference_comm. f_equal. lia.
Qed.

Lemma derive_sound_witness :
  sound (mine_at example_board) example_mine_sentence
  ∧ sound (mine_at example_board) example_pair_sentence
  ∧ Sentence.cells example_mine_sentence
    ⊆ Sentence.cells example_pair_sentence
  ∧ sound (mine_at example_board)
      (MinesweeperAI.derive example_mine_sentence example_pair_sentence).
Proof.
  assert (sound (mine_at example_board) example_mine_sentence) as H1
    by by vm_compute.
  assert (sound (mine_at example_board) example_pair_sentence) as H2
    by by vm_compute.
  assert (Sentence.cells example_mine_sentence
          ⊆ Sentence.cells example_pair_sentence) as H3
    by (apply (bool_decide_unpack _); by vm_compute).
  split_and!; [exact H1|exact H2|exact H3|].
  exact (proj2 (proj2 (proj2 (derive_sound _ _ _ H1 H2 H3)))).
Defined.

(** X16: a pass of the two nested loops only appends: the sentences it
    started with keep their places, the appended ones are pairwise
    different and different from all those it started with, and [change]
    is set exactly when something was appended. *)
Theorem derive_pass_appends (kn : list Sentence.t) :
  ∃ new, MinesweeperAI.derive_pass kn = (kn ++ new, bool_decide (new ≠ []))
         ∧ NoDup new
         ∧ Forall (λ s, s ∉ kn) new.
Proof.
  destruct (derive_pass_app kn) as (new & Hpass & Hnd & Hfresh).
  exists new. split_and!; [done|done|]. by apply Forall_forall.
Qed.

(** X17: the loops pair every sentence with itself too, so after a pass
    over a knowledge base that is not empty the sentence with no cells
    and count 0 is in it. *)
Theorem derive_pass_empty_sentence (kn : list Sentence.t) :
  kn ≠ [] → Sentence.mk ∅ 0 ∈ (MinesweeperAI.derive_pass kn).1.
Proof.
  destruct kn as [|s kn]; [done|]. intros _.
  assert (MinesweeperAI.derive s s = Sentence.mk ∅ 0) as <-.
  { unfold MinesweeperAI.derive, symmetric_difference.
    f_equal; [set_solver|lia]. }
  apply (derive_pass_derived (s :: kn) 0 0); [done|done|by left].
Qed.

Lemma derive_pass_empty_sentence_witness :
  [example_A; example_B] ≠ []
  ∧ Sentence.mk ∅ 0 ∈ (MinesweeperAI.derive_pass [example_A; example_B]).1.
Proof.
  assert ([example_A; example_B] ≠ []) as Hne by done.
  split; [exact Hne|]. exact (derive_pass_empty_sentence _ Hne).
Defined.

Lemma foldl_unchanged {A S} (f : S → A → S) (l : list A) (acc : S) :
  (∀ x, x ∈ l → f acc x = acc) → foldl f acc l = acc.
Proof.
  induction l as [|x l IH]; intros Hf; [done|]. simpl.
  rewrite Hf by (by left). apply IH. intros y Hy. apply Hf. by right.
Qed.

(** X18: a pass leaves the knowledge base as it is, with [change] false,
    exactly when for every pair of its sentences with one cell set
    inside the other the derived sentence is already in it. *)
Theorem derive_pass_fixed_point (kn : list Sentence.t) :
  MinesweeperAI.derive_pass kn = (kn, false) ↔ derivation_closed kn.
Proof.
  split; [by intros [_ H]%derive_pass_no_change|].
  intros Hclosed. unfold MinesweeperAI.derive_pass.
  apply foldl_unchanged. intros x _. unfold MinesweeperAI.row_step.
  apply foldl_unchanged. intros y _.
  destruct (pair_step_cases x y (kn, false))
    as [Heq|(s1 & s2 & Hx & Hy & Hsub & Hnot & _)]; [done|].
  destruct Hnot. by eapply Hclosed.
Qed.

(** ** The cleanup and the final scan *)

(** X19: whatever the order in which the copies of the cell sets are
    enumerated, the cleanup turns each sentence into the one without the
    cells of [safes] and [mines], its count lowered by the number of its
    cells that are in [mines] and not in [safes]; the list keeps its
    length and order. *)
Theorem cleanup_effect (sf mn : gset Cell) (kn : list Sentence.t) :
  MinesweeperAI.cleanup sf mn kn
  = (λ s, Sentence.mk (Sentence.cells s ∖ sf ∖ mn)
            (Sentence.count s
             - Z.of_nat (size ((Sentence.cells s ∖ sf) ∩ mn)))) <$> kn.
Proof.
  rewrite cleanup_fmap. apply list_fmap_ext. intros i s _.
  apply cleanup_one_spec.
Qed.

(** X20: after the cleanup no sentence mentions a cell of [safes] or of
    [mines], and a second cleanup changes nothing. *)
Theorem cleanup_idempotent (sf mn : gset Cell) (kn : list Sentence.t) :
  free_of sf mn (MinesweeperAI.cleanup sf mn kn)
  ∧ MinesweeperAI.cleanup sf mn (MinesweeperAI.cleanup sf mn kn)
    = MinesweeperAI.cleanup sf mn kn.
Proof.
  assert (free_of sf mn (MinesweeperAI.cleanup sf mn kn)) as Hfree.
  { unfold free_of. rewrite cleanup_fmap.
    apply Forall_fmap, Forall_forall. intros s _. apply cleanup_one_disjoint. }
  split; [exact Hfree|].
  rewrite (cleanup_fmap sf mn (MinesweeperAI.cleanup sf mn kn)).
  unfold free_of in Hfree.
  induction Hfree as [|s l Hs _ IH]; [done|].
  by rewrite fmap_cons, IH, cleanup_one_clean.
Qed.

(** X21: the final scan adds to [mines] exactly the cells of the sentences
    that have as many cells as their count, and changes nothing else; a
    second scan adds nothing. *)
Theorem mark_known_mines_effect (a : MinesweeperAI.t) :
  (∀ c, c ∈ MinesweeperAI.mines (MinesweeperAI.mark_known_mines a)
        ↔ c ∈ MinesweeperAI.mines a
          ∨ ∃ s, s ∈ MinesweeperAI.knowledge a
                 ∧ Z.of_nat (size (Sentence.cells s)) = Sentence.count s
                 ∧ c ∈ Sentence.cells s)
  ∧ MinesweeperAI.knowledge (MinesweeperAI.mark_known_mines a)
    = MinesweeperAI.knowledge a
  ∧ MinesweeperAI.safes (MinesweeperAI.mark_known_mines a)
    = MinesweeperAI.safes a
  ∧ MinesweeperAI.mines
      (MinesweeperAI.mark_known_mines (MinesweeperAI.mark_known_mines a))
    = MinesweeperAI.mines (MinesweeperAI.mark_known_mines a).
Proof.
  split_and!; [apply elem_of_mark_known_mines|done|done|].
  apply set_eq. intros c. rewrite !elem_of_mark_known_mines.
  split; [|by left].
  intros [H|(s & Hs & Hdet & Hc)]; [done|].
  right. by exists s.
Qed.

(** ** When the loop runs and when it ends *)

(** X22: on an engine without sentences, [add_knowledge] with a count
    other than zero returns without entering the loop (line 200): the
    knowledge base is the one new sentence over all eight neighbours,
    from which the known safe cells and mines have not been removed, and
    [safes] is as before. *)
Theorem add_knowledge_first_sentence fuel (cell : Cell) count
    (a : MinesweeperAI.t) :
  count ≠ 0 → MinesweeperAI.knowledge a = [] →
  ∃ a', MinesweeperAI.add_knowledge fuel cell count a = Some a'
        ∧ MinesweeperAI.knowledge a'
          = [Sentence.mk
               (list_to_set (MinesweeperAI.neighbours cell.1 cell.2)) count]
        ∧ MinesweeperAI.safes a' = MinesweeperAI.safes a
        ∧ MinesweeperAI.mines a ⊆ MinesweeperAI.mines a'.
Proof.
  intros Hc Hkn. rewrite add_knowledge_nonzero by done.
  unfold observed_knowledge. rewrite Hkn. cbn [fmap list_fmap app].
  rewrite closure_loop_skip. eexists. split; [reflexivity|].
  split_and!; [done|done|].
  etrans; [|apply subseteq_mark_known_mines]. done.
Qed.

Lemma add_knowledge_first_sentence_witness :
  1 ≠ 0
  ∧ MinesweeperAI.knowledge example_state1 = []
  ∧ ∃ a', MinesweeperAI.add_knowledge 0 (1, 1) 1 example_state1 = Some a'
          ∧ MinesweeperAI.knowledge a'
            = [Sentence.mk (list_to_set (MinesweeperAI.neighbours 1 1)) 1]
          ∧ MinesweeperAI.safes a' = MinesweeperAI.safes example_state1.
Proof.
  assert (1 ≠ 0) as H1 by lia.
  assert (MinesweeperAI.knowledge example_state1 = []) as H2 by by vm_compute.
  split_and!; [exact H1|exact H2|].
  destruct (add_knowledge_first_sentence 0 (1, 1) 1 example_state1 H1 H2)
    as (a' & Ha & Hk & Hs & _).
  exists a'. by split_and!.
Defined.

(** X23: if the knowledge base holds a sentence with no cells and a
    negative count, [add_knowledge] with a count other than zero never
    returns: every pass of the loop derives a sentence with a count above
    all those in the list. *)
Theorem add_knowledge_negative_count_diverges (cell : Cell) count
    (a : MinesweeperAI.t) (s0 : Sentence.t) :
  count ≠ 0 →
  s0 ∈ MinesweeperAI.knowledge a →
  Sentence.cells s0 = ∅ → Sentence.count s0 < 0 →
  ∀ fuel, MinesweeperAI.add_knowledge fuel cell count a = None.
Proof.
  intros Hc Hs0 Hcells Hneg fuel. rewrite add_knowledge_nonzero by done.
  rewrite (closure_loop_diverges fuel _ _ _ s0); [done| |done|done|].
  - unfold observed_knowledge. apply elem_of_app. left.
    apply list_elem_of_fmap. exists s0. split; [|done].
    unfold Sentence.mark_safe. rewrite decide_False; [done|].
    rewrite Hcells. apply not_elem_of_empty.
  - unfold observed_knowledge. rewrite length_app, length_fmap. simpl.
    destruct (MinesweeperAI.knowledge a) as [|s kn]; [|simpl; lia].
    by apply not_elem_of_nil in Hs0.
Qed.

Lemma add_knowledge_negative_count_diverges_witness :
  1 ≠ 0
  ∧ Sentence.mk ∅ (-7) ∈ MinesweeperAI.knowledge overmarked_state
  ∧ ∀ fuel, MinesweeperAI.add_knowledge fuel (3, 3) 1 overmarked_state = None.
Proof.
  assert (1 ≠ 0) as H1 by lia.
  assert (Sentence.mk ∅ (-7) ∈ MinesweeperAI.knowledge overmarked_state)
    as H2 by (apply (bool_decide_unpack _); by vm_compute).
  split_and!; [exact H1|exact H2|].
  apply (add_knowledge_negative_count_diverges (3, 3) 1 overmarked_state
           (Sentence.mk ∅ (-7)) H1 H2); [done|]. simpl. lia.
Defined.

(** X24: calls that agree with one mine layout all return, whatever the
    state they start from as long as it agrees with the layout too, and
    the state they leave agrees with it again. *)
Theorem agreeing_calls_return (M : Cell → bool) to_list (ops : list op)
    (a : MinesweeperAI.t) :
  Forall (agrees M) ops → consistent M a →
  ∃ a', run to_list a ops a' ∧ consistent M a'.
Proof.
  intros Hops Ha.
  destruct (consistent_run_exists M to_list ops a Hops Ha) as [a' Hrun].
  exists a'. split; [done|]. by eapply run_consistent.
Qed.

Lemma agreeing_calls_return_witness :
  Forall (agrees (mine_at example_board)) example_ops
  ∧ consistent (mine_at example_board) example_state0
  ∧ ∃ a', run elements example_state0 example_ops a'
          ∧ consistent (mine_at example_board) a'.
Proof.
  assert (consistent (mine_at example_board) example_state0) as Ha
    by apply init_consistent.
  split_and!; [exact example_ops_agree|exact Ha|].
  exact (agreeing_calls_return (mine_at example_board) elements example_ops
           example_state0 example_ops_agree Ha).
Defined.

(** ** class Minesweeper *)

(** X25: [nearby_mines] is the number of the eight neighbours of the cell
    that are on the board and hold a mine; the cell itself and cells off
    the board never count, so the result is between 0 and 8. *)
Theorem nearby_mines_counts_neighbours (g : Minesweeper.t) (cell : Cell) :
  Minesweeper.nearby_mines g cell
  = Z.of_nat (size (filter (λ c, mine_at g c = true)
                      (list_to_set (MinesweeperAI.neighbours cell.1 cell.2)
                       : gset Cell)))
  ∧ 0 ≤ Minesweeper.nearby_mines g cell ≤ 8
  ∧ (cell ∉ MinesweeperAI.neighbours cell.1 cell.2).
Proof.
  split; [|split].
  - apply nearby_mines_mine_count.
  - rewrite nearby_mines_mine_count.
    pose proof (mine_count_bounds (mine_at g)
      (list_to_set (MinesweeperAI.neighbours cell.1 cell.2))) as H.
    rewrite size_list_to_set in H by apply NoDup_neighbours.
    assert (length (MinesweeperAI.neighbours cell.1 cell.2) = 8%nat) as Hlen
      by reflexivity.
    rewrite Hlen in H. lia.
  - unfold MinesweeperAI.neighbours. intros Hin.
    repeat (apply elem_of_cons in Hin as [Hin|Hin];
            [destruct cell; simpl in Hin; injection Hin; lia|]).
    by apply not_elem_of_nil in Hin.
Qed.

(** ** The constructor of class Minesweeper *)

Section game_facts.
Implicit Types (b : list (list bool)) (ms : gset Cell) (c : Cell).

Lemma board_at_empty height width h0 w0 i j :
  Minesweeper.board_at
    (Minesweeper.mk height width (Game.empty_board h0 w0)) i j = false.
Proof.
  unfold Minesweeper.board_at, Game.empty_board. simpl.
  destruct (replicate _ _ !! Z.to_nat i) as [row|] eqn:Hrow; [|done].
  apply lookup_replicate_1 in Hrow as [-> _].
  destruct (replicate _ _ !! Z.to_nat j) as [x|] eqn:Hx; [|done].
  by apply lookup_replicate_1 in Hx as [-> _].
Qed.

Lemma empty_board_ok height width :
  board_ok height width (Game.empty_board height width) ∅.
Proof.
  unfold board_ok, Game.empty_board. split_and!.
  - apply length_replicate.
  - apply Forall_forall. intros row [-> _]%elem_of_replicate.
    apply length_replicate.
  - intros c. unfold mine_at.
    rewrite (board_at_empty height width height width), andb_false_r.
    split; [done|]. by intros ?%not_elem_of_empty.
Qed.

Lemma board_at_set_mine height width b i j i' j' :
  length b = Z.to_nat height →
  Forall (λ row, length row = Z.to_nat width) b →
  0 ≤ i < height → 0 ≤ j < width → 0 ≤ i' → 0 ≤ j' →
  Minesweeper.board_at (Minesweeper.mk height width (Game.set_mine b i j))
    i' j'
  = if decide ((i', j') = (i, j)) then true
    else Minesweeper.board_at (Minesweeper.mk height width b) i' j'.
Proof.
  intros Hlen Hrows Hi Hj Hi' Hj'.
  unfold Minesweeper.board_at, Game.set_mine. simpl.
  rewrite list_lookup_alter.
  destruct (decide (Z.to_nat i = Z.to_nat i')) as [Heq|Hne].
  - assert (i' = i) as -> by lia.
    destruct (b !! Z.to_nat i) as [row|] eqn:Hrow; simpl.
    + rewrite Forall_forall in Hrows.
      pose proof (Hrows row (list_elem_of_lookup_2 _ _ _ Hrow)) as Hw.
      rewrite list_lookup_insert.
      destruct (decide (Z.to_nat j = Z.to_nat j' ∧ _)) as [[Hj1 _]|Hn].
      * assert (j' = j) as -> by lia. by rewrite decide_True.
      * rewrite decide_False; [done|]. intros [= ->]. apply Hn. lia.
    + apply lookup_ge_None in Hrow. lia.
  - rewrite decide_False; [done|]. intros [= -> _]. done.
Qed.

Lemma set_mine_ok height width b ms i j :
  board_ok height width b ms →
  0 ≤ i < height → 0 ≤ j < width →
  board_ok height width (Game.set_mine b i j) (ms ∪ {[(i, j)]}).
Proof.
  intros (Hlen & Hrows & Hmines) Hi Hj. split_and!.
  - unfold Game.set_mine. by rewrite length_alter.
  - unfold Game.set_mine. apply Forall_alter; [done|].
    intros row _ Hrow. by rewrite length_insert.
  - intros c. rewrite elem_of_union, elem_of_singleton, <- Hmines.
    unfold mine_at. simpl.
    destruct (Minesweeper.in_bounds _ c.1 c.2) eqn:Hin; simpl.
    + unfold Minesweeper.in_bounds in Hin. simpl in Hin.
      rewrite !andb_true_iff, !Z.leb_le, !Z.ltb_lt in Hin.
      rewrite (board_at_set_mine height width) by (done || lia).
      destruct c as [i' j']. simpl in *.
      destruct (decide ((i', j') = (i, j))) as [Heq|Hne].
      * split; [by right|done].
      * split; [by left|]. by intros [?|?].
    + split; [done|]. intros [?| ->]; [done|].
      unfold Minesweeper.in_bounds in Hin. simpl in Hin.
      apply not_true_iff_false in Hin. destruct Hin.
      rewrite !andb_true_iff, !Z.leb_le, !Z.ltb_lt. lia.
Qed.

Lemma place_mines_ok height width n draws b ms b' ms' :
  draws_in_range height width draws →
  board_ok height width b ms →
  Game.place_mines height width n draws b ms = Some (b', ms') →
  board_ok height width b' ms' ∧ Z.of_nat (size ms') = n.
Proof.
  intros Hdraws. revert b ms.
  induction Hdraws as [|[i j] draws [Hi Hj] _ IH]; intros b ms Hok;
    cbn [Game.place_mines].
  - destruct (decide _) as [|Heq]; [done|].
    intros [= <- <-]. split; [done|]. by apply dec_stable in Heq.
  - destruct (decide _) as [|Heq].
    + destruct (Minesweeper.board_at _ i j).
      * by apply IH.
      * apply IH. by apply set_mine_ok.
    + intros [= <- <-]. split; [done|]. by apply dec_stable in Heq.
Qed.

Lemma init_board_ok height width n draws g :
  draws_in_range height width draws →
  Game.init height width n draws = Some g →
  Minesweeper.height (Game.board g) = height
  ∧ Minesweeper.width (Game.board g) = width
  ∧ Game.mines_found g = ∅
  ∧ board_ok height width (Minesweeper.board (Game.board g)) (Game.mines g)
  ∧ Z.of_nat (size (Game.mines g)) = n.
Proof.
  intros Hdraws. unfold Game.init.
  destruct (Game.place_mines _ _ _ _ _ _) as [[b ms]|] eqn:Hplace; [|done].
  simpl. intros [= <-]. simpl.
  destruct (place_mines_ok _ _ _ _ _ _ _ _ Hdraws
              (empty_board_ok height width) Hplace) as [Hok Hsize].
  by split_and!.
Qed.

Lemma size_list_to_set_le (l : list Cell) :
  (size (list_to_set l : gset Cell) ≤ length l)%nat.
Proof.
  induction l as [|x l IH].
  - rewrite list_to_set_nil, (size_empty (C:=gset Cell)). simpl. lia.
  - rewrite list_to_set_cons.
    rewrite (size_union_alt (C:=gset Cell) {[x]} (list_to_set l)).
    rewrite (size_singleton (C:=gset Cell)).
    assert (size (list_to_set l ∖ {[x]} : gset Cell)
            ≤ size (list_to_set l : gset Cell))%nat
      by (apply subseteq_size; set_solver).
    simpl. lia.
Qed.

Lemma board_ok_size height width b ms :
  board_ok height width b ms →
  Z.of_nat (size ms) ≤ Z.max 0 height * Z.max 0 width.
Proof.
  intros (_ & _ & Hmines).
  assert (ms ⊆ list_to_set (board_cells height width)) as Hsub.
  { intros c Hc. apply Hmines in Hc. unfold mine_at in Hc.
    apply andb_true_iff in Hc as [Hin _].
    unfold Minesweeper.in_bounds in Hin. simpl in Hin.
    rewrite !andb_true_iff, !Z.leb_le, !Z.ltb_lt in Hin.
    apply elem_of_list_to_set. unfold board_cells.
    apply list_elem_of_cprod. rewrite !elem_of_seqZ. lia. }
  apply subseteq_size in Hsub.
  pose proof (size_list_to_set_le (board_cells height width)) as Hle.
  unfold board_cells in Hsub, Hle.
  rewrite list_cprod_list_prod in Hsub.
  rewrite list_cprod_list_prod, List.length_prod, !length_seqZ in Hle.
  assert (Z.of_nat (Z.to_nat height * Z.to_nat width)
          = Z.max 0 height * Z.max 0 width) as <-
    by (rewrite Nat2Z.inj_mul; f_equal; lia).
  lia.
Qed.

Lemma place_mines_never height width n draws b ms :
  draws_in_range height width draws →
  board_ok height width b ms →
  n < 0 ∨ Z.max 0 height * Z.max 0 width < n →
  Game.place_mines height width n draws b ms = None.
Proof.
  intros Hdraws Hok Hn. revert b ms Hok.
  induction Hdraws as [|[i j] draws [Hi Hj] _ IH]; intros b ms Hok;
    cbn [Game.place_mines];
    pose proof (board_ok_size _ _ _ _ Hok) as Hsize;
    (rewrite decide_True by lia).
  - done.
  - destruct (Minesweeper.board_at _ i j).
    + by apply IH.
    + apply IH. by apply set_mine_ok.
Qed.

End game_facts.

(** X26: when [Minesweeper(height, width, mines)] returns, the board has
    [height] rows of [width] cells, the set [mines] has exactly [mines]
    cells, all on the board, and a cell of the board holds a mine exactly
    when it is in that set; [mines_found] is empty, so the game counts as
    won at once exactly when it has no mine. *)
Theorem init_board_matches_mines height width n (draws : list Cell)
    (g : Game.t) :
  draws_in_range height width draws →
  Game.init height width n draws = Some g →
  length (Minesweeper.board (Game.board g)) = Z.to_nat height
  ∧ Forall (λ row, length row = Z.to_nat width)
      (Minesweeper.board (Game.board g))
  ∧ Z.of_nat (size (Game.mines g)) = n
  ∧ (∀ c, c ∈ Game.mines g
          ↔ Minesweeper.in_bounds (Game.board g) c.1 c.2 = true
            ∧ Minesweeper.board_at (Game.board g) c.1 c.2 = true)
  ∧ (Game.won g = true ↔ n = 0).
Proof.
  intros Hdraws Hinit.
  destruct (init_board_ok _ _ _ _ _ Hdraws Hinit)
    as (Hh & Hw & Hfound & (Hlen & Hrows & Hmines) & Hsize).
  split_and!; [done|done|done| |].
  - intros c. rewrite <- Hmines. unfold mine_at.
    destruct (Game.board g) as [h w b]. simpl in *. subst.
    by rewrite andb_true_iff.
  - unfold Game.won. rewrite bool_decide_eq_true, Hfound. split.
    + intros Heq. rewrite <- Heq, (size_empty (C:=gset Cell)) in Hsize.
      lia.
    + intros Hn. symmetry. apply leibniz_equiv.
      apply (size_empty_inv (C:=gset Cell)). lia.
Qed.

Lemma init_board_matches_mines_witness :
  draws_in_range 5 5 [(2, 2); (0, 0)]
  ∧ ∃ g, Game.init 5 5 1 [(2, 2); (0, 0)] = Some g
         ∧ Z.of_nat (size (Game.mines g)) = 1
         ∧ Game.board g = example_board.
Proof.
  assert (draws_in_range 5 5 [(2, 2); (0, 0)]) as Hdraws
    by (repeat constructor; simpl; lia).
  split; [exact Hdraws|].
  destruct (Game.init 5 5 1 [(2, 2); (0, 0)]) as [g|] eqn:Hinit;
    [|by vm_compute in Hinit].
  exists g. split; [done|].
  destruct (init_board_matches_mines 5 5 1 _ g Hdraws Hinit)
    as (_ & _ & Hsize & _).
  split; [exact Hsize|].
  vm_compute in Hinit. by injection Hinit as <-.
Defined.

(** X27: on a game that the constructor built, [nearby_mines] of a cell is
    the number of its eight neighbours that are in the set [mines]. *)
Theorem init_nearby_mines height width n (draws : list Cell) (g : Game.t)
    (cell : Cell) :
  draws_in_range height width draws →
  Game.init height width n draws = Some g →
  Minesweeper.nearby_mines (Game.board g) cell
  = Z.of_nat (size (Game.mines g
                    ∩ list_to_set (MinesweeperAI.neighbours cell.1 cell.2))).
Proof.
  intros Hdraws Hinit.
  destruct (init_board_ok _ _ _ _ _ Hdraws Hinit)
    as (Hh & Hw & _ & (_ & _ & Hmines) & _).
  rewrite nearby_mines_mine_count. unfold mine_count. f_equal. f_equal.
  apply set_eq. intros c.
  rewrite elem_of_true_mines, elem_of_intersection, <- Hmines.
  destruct (Game.board g) as [h w b]. simpl in *. subst. tauto.
Qed.

Lemma init_nearby_mines_witness :
  draws_in_range 5 5 [(2, 2); (0, 0)]
  ∧ ∃ g, Game.init 5 5 1 [(2, 2); (0, 0)] = Some g
         ∧ Minesweeper.nearby_mines (Game.board g) (1, 1)
           = Z.of_nat (size (Game.mines g
                             ∩ list_to_set (MinesweeperAI.neighbours 1 1))).
Proof.
  assert (draws_in_range 5 5 [(2, 2); (0, 0)]) as Hdraws
    by (repeat constructor; simpl; lia).
  split; [exact Hdraws|].
  destruct (Game.init 5 5 1 [(2, 2); (0, 0)]) as [g|] eqn:Hinit;
    [|by vm_compute in Hinit].
  exists g. split; [done|].
  exact (init_nearby_mines 5 5 1 _ g (1, 1) Hdraws Hinit).
Defined.

(** X28: on a board with at least one cell, asked for a negative number of
    mines or for more mines than the board has cells, the constructor
    never returns: whatever cells are drawn, the loop of lines 26-31 is
    still running after them. *)
Theorem init_too_many_mines height width n (draws : list Cell) :
  0 < height → 0 < width →
  draws_in_range height width draws →
  n < 0 ∨ height * width < n →
  Game.init height width n draws = None.
Proof.
  intros Hh Hw Hdraws Hn. unfold Game.init.
  rewrite (place_mines_never height width n draws); [done|done| |].
  - apply empty_board_ok.
  - rewrite !Z.max_r by lia. done.
Qed.

Lemma init_too_many_mines_witness :
  0 < 2
  ∧ draws_in_range 2 2 [(0, 0); (0, 1); (1, 0); (1, 1); (0, 0)]
  ∧ (5 < 0 ∨ 2 * 2 < 5)
  ∧ Game.init 2 2 5 [(0, 0); (0, 1); (1, 0); (1, 1); (0, 0)] = None.
Proof.
  assert (0 < 2) as Hpos by lia.
  assert (draws_in_range 2 2 [(0, 0); (0, 1); (1, 0); (1, 1); (0, 0)])
    as Hdraws by (repeat constructor; simpl; lia).
  assert (5 < 0 ∨ 2 * 2 < 5) as Hn by (right; lia).
  split_and!; [exact Hpos|exact Hdraws|exact Hn|].
  exact (init_too_many_mines 2 2 5 _ Hpos Hpos Hdraws Hn).
Defined.

(** ** [make_random_move] *)

Lemma first_move_returned (draws : list Cell) (a : MinesweeperAI.t)
    (c : Cell) :
  MinesweeperAI.first_move draws a = MinesweeperAI.Returned c →
  c ∈ draws ∧ (c ∉ MinesweeperAI.moves_made a) ∧ (c ∉ MinesweeperAI.mines a).
Proof.
  unfold MinesweeperAI.first_move.
  destruct (list_find _ draws) as [[i x]|] eqn:Hfind; [|done].
  intros [= ->]. apply list_find_Some in Hfind as (Hi & [Hm Hn] & _).
  split_and!; [|done|done]. by eapply list_elem_of_lookup_2.
Qed.

(** X29: a cell that [make_random_move] returns is neither in
    [moves_made] nor in [mines].  While some cell of [safes] has not been
    played, the call raises where [random.sample] does not accept a set
    (Python 3.11 and later); where it does, a returned cell is one that
    was drawn from [safes], also when [safes] has a single cell (where
    [make_safe_move] gives up).  Once all of [safes] is played the cell
    is one of the pairs drawn from 0..7. *)
Theorem make_random_move_result (sample : option (list Cell))
    (rand : list Cell) (a : MinesweeperAI.t) :
  (∀ c, MinesweeperAI.make_random_move sample rand a
        = MinesweeperAI.Returned c →
        (c ∉ MinesweeperAI.moves_made a) ∧ (c ∉ MinesweeperAI.mines a))
  ∧ (¬ MinesweeperAI.safes a ⊆ MinesweeperAI.moves_made a →
     match sample with
     | None =>
         MinesweeperAI.make_random_move sample rand a = MinesweeperAI.Raised
     | Some draws =>
         ∀ c, MinesweeperAI.make_random_move sample rand a
              = MinesweeperAI.Returned c →
              c ∈ draws
              ∧ (Forall (λ x, x ∈ MinesweeperAI.safes a) draws →
                 c ∈ MinesweeperAI.safes a)
     end)
  ∧ (MinesweeperAI.safes a ⊆ MinesweeperAI.moves_made a →
     ∀ c, MinesweeperAI.make_random_move sample rand a
          = MinesweeperAI.Returned c → c ∈ rand).
Proof.
  assert (¬ MinesweeperAI.safes a ⊆ MinesweeperAI.moves_made a →
          (0 < size (MinesweeperAI.safes a))%nat
          ∧ ¬ MinesweeperAI.safes a ⊆ MinesweeperAI.moves_made a) as Hcond.
  { intros Hnot. split; [|done].
    destruct (decide (0 < size (MinesweeperAI.safes a))%nat) as [|Hz];
      [done|].
    destruct Hnot.
    assert (MinesweeperAI.safes a = ∅) as ->.
    { apply leibniz_equiv, (size_empty_inv (C:=gset Cell)). lia. }
    apply empty_subseteq. }
  unfold MinesweeperAI.make_random_move. split_and!.
  - intros c. destruct (decide _); [destruct sample as [draws|]; [|done]|];
      intros (_ & Hm & Hn)%first_move_returned; done.
  - intros Hnot. rewrite decide_True by by apply Hcond.
    destruct sample as [draws|]; [|done].
    intros c (Hin & _)%first_move_returned. split; [done|].
    intros Hdraws. rewrite Forall_forall in Hdraws. by apply Hdraws.
  - intros Hsub. rewrite decide_False by (intros [_ Hnot]; by apply Hnot).
    by intros c (Hin & _)%first_move_returned.
Qed.

Lemma make_random_move_result_witness :
  ¬ MinesweeperAI.safes example_state2
    ⊆ MinesweeperAI.moves_made example_state2
  ∧ MinesweeperAI.make_random_move (Some [(1, 1); (0, 1)]) [] example_state2
    = MinesweeperAI.Returned (0, 1)
  ∧ (0, 1) ∈ MinesweeperAI.safes example_state2
  ∧ MinesweeperAI.make_random_move None [] example_state2
    = MinesweeperAI.Raised.
Proof.
  assert (¬ MinesweeperAI.safes example_state2
            ⊆ MinesweeperAI.moves_made example_state2) as Hnot.
  { intros Hsub.
    assert ((0, 1) ∈ MinesweeperAI.moves_made example_state2) as Hin
      by (apply Hsub, (bool_decide_unpack _); by vm_compute).
    revert Hin. apply (bool_decide_unpack _). by vm_compute. }
  assert (MinesweeperAI.make_random_move (Some [(1, 1); (0, 1)]) []
            example_state2 = MinesweeperAI.Returned (0, 1)) as Hmove
    by by vm_compute.
  destruct (make_random_move_result (Some [(1, 1); (0, 1)]) []
              example_state2) as (_ & Hsome & _).
  destruct (make_random_move_result None [] example_state2)
    as (_ & Hnone & _).
  split_and!; [exact Hnot|exact Hmove| |exact (Hnone Hnot)].
  apply (Hsome Hnot (0, 1) Hmove).
  repeat constructor; apply (bool_decide_unpack _); by vm_compute.
Defined.

(** X30: when every cell of [safes] has been played and every cell with
    row and column in 0..7 is in [moves_made] or in [mines],
    [make_random_move] never returns: whatever pairs are drawn, the
    second loop is still running after them. *)
Theorem make_random_move_played_out (sample : option (list Cell))
    (rand : list Cell) (a : MinesweeperAI.t) :
  MinesweeperAI.safes a ⊆ MinesweeperAI.moves_made a →
  (∀ c, in_fixed_bounds c →
        c ∈ MinesweeperAI.moves_made a ∨ c ∈ MinesweeperAI.mines a) →
  Forall in_fixed_bounds rand →
  MinesweeperAI.make_random_move sample rand a = MinesweeperAI.Running.
Proof.
  intros Hsub Hall Hrand. unfold MinesweeperAI.make_random_move.
  rewrite decide_False by (intros [_ Hnot]; by apply Hnot).
  destruct (MinesweeperAI.first_move rand a) as [c| |] eqn:Hmove;
    [|by unfold MinesweeperAI.first_move in Hmove;
        destruct (list_find _ _) as [[??]|]|done].
  apply first_move_returned in Hmove as (Hin & Hm & Hn).
  rewrite Forall_forall in Hrand.
  destruct (Hall c) as [?|?]; [by apply Hrand|done|done].
Qed.

Lemma played_out_state_full (c : Cell) :
  in_fixed_bounds c →
  c ∈ MinesweeperAI.moves_made played_out_state
  ∨ c ∈ MinesweeperAI.mines played_out_state.
Proof.
  intros [H1 H2]. left. unfold played_out_state, board_cells.
  cbn [MinesweeperAI.moves_made].
  apply elem_of_list_to_set, list_elem_of_cprod.
  rewrite !elem_of_seqZ. lia.
Defined.

Lemma make_random_move_played_out_witness :
  MinesweeperAI.safes played_out_state
  ⊆ MinesweeperAI.moves_made played_out_state
  ∧ Forall in_fixed_bounds [(3, 4); (0, 7)]
  ∧ MinesweeperAI.make_random_move None [(3, 4); (0, 7)] played_out_state
    = MinesweeperAI.Running.
Proof.
  assert (MinesweeperAI.safes played_out_state
          ⊆ MinesweeperAI.moves_made played_out_state) as Hsub
    by apply empty_subseteq.
  assert (Forall in_fixed_bounds [(3, 4); (0, 7)]) as Hrand
    by (repeat constructor; simpl; lia).
  split_and!; [exact Hsub|exact Hrand|].
  exact (make_random_move_played_out None _ played_out_state Hsub
           played_out_state_full Hrand).
Defined.
